(** * mqvision: the stream broadcaster and the fan-out/join coordinator

    A shallow embedding of
      - [multi_writer_pipe.go]: [SingleInMultiOutPipeWriter] ([Write],
        [Close]), [SingleInMultiOutPipeReader] ([Close]) and the
        constructor [SingleInMultiOutPipe];
      - [main.go]: the single-shot branch of [main] and
        [mqttReadGuageSubHandler], which join the two consumers and send a
        [Luggage] on the channel [chLuggage];
      - [internal/concierge/concierge.go]: [Client.PostImage];
      - [internal/gemini/gemini.go]: [Client.ReadGasGuagePic].

    Go objects that are shared by reference (the pipes behind the writer
    slice, the closer slice and the readers) live in a store and are named
    by their index in it.  A call either returns, blocks for ever or
    panics; methods are functions in a small state monad over the store. *)

From Stdlib Require Import ZArith String.
From stdpp Require Import base tactics option list.

Local Open Scope Z_scope.

(** ** Values *)

Abbreviation bytes := (list Byte.byte).

(** [len(p)] of a byte slice, as a Go [int]. *)
Definition len (p : bytes) : Z := Z.of_nat (length p).

(** Go [error] values; [nil] is [None] of [option error]. *)
Inductive error : Type :=
  | ErrClosedPipe                (* io.ErrClosedPipe *)
  | ErrShortWrite                (* io.ErrShortWrite *)
  | ErrOther (msg : string).     (* any other error value *)

Definition is_nil {A} (o : option A) : bool :=
  match o with None => true | Some _ => false end.

(** ** Calls and the store monad *)

Inductive outcome (A : Type) : Type :=
  | Ret (a : A)        (* the call returns *)
  | Blocked            (* the call never returns *)
  | Panicked.          (* the call panics *)
Arguments Ret {A} a.
Arguments Blocked {A}.
Arguments Panicked {A}.

Definition M (S A : Type) : Type := S -> outcome (A * S).

Definition ret {S A} (a : A) : M S A := fun s => Ret (a, s).

Definition bind {S A B} (c : M S A) (k : A -> M S B) : M S B :=
  fun s => match c s with
           | Ret (a, s') => k a s'
           | Blocked => Blocked
           | Panicked => Panicked
           end.

Notation "'let*' x := c 'in' k" := (bind c (fun x => k))
  (at level 10, x name, c at level 100, k at level 200).

(** ** multi_writer_pipe.go *)

(** What the broadcaster asks of the objects it holds.  In the source the
    fields are interface values: [writers []io.Writer], [closers
    []io.Closer] and the reader's [closer io.Closer]; the constructor puts
    the write half of a pipe in the first two and the read half in the
    third.  [P] is the state of one such object. *)
Class PipeEnds (P : Type) : Type := {
  pw_Write : bytes -> P -> outcome ((Z * option error) * P);
  pw_Close : P -> outcome (option error * P);
  pr_Close : P -> outcome (option error * P)
}.

Record SingleInMultiOutPipeReader : Type := {
  Reader : nat;            (* the embedded io.Reader: a pipe of the store *)
  closer : option nat      (* [None] is the nil interface *)
}.

Record SingleInMultiOutPipeWriter : Type := {
  writers : list nat;
  closers : list nat;
  closed : bool
}.

Section Broadcaster.
Context {P : Type} `{PipeEnds P}.

(** A method call through the reference [i]; a dangling reference is a
    nil receiver. *)
Definition call {A} (i : nat) (f : P -> outcome (A * P)) : M (list P) A :=
  fun h => match h !! i with
           | None => Panicked
           | Some x => match f x with
                       | Ret (a, x') => Ret (a, <[i := x']> h)
                       | Blocked => Blocked
                       | Panicked => Panicked
                       end
           end.

(** One turn of the loop of [Write]. *)
Definition note_failure (p : bytes) (res : Z * option error)
    (firstErr : option error) : option error :=
  let '(n, err) := res in
  let firstErr :=
    if negb (is_nil err) && is_nil firstErr then err else firstErr in
  let firstErr :=
    if negb (n =? len p) && is_nil firstErr then Some ErrShortWrite
    else firstErr in
  firstErr.

(** [for _, writer := range w.writers { ... }] *)
Fixpoint forward (ws : list nat) (p : bytes) (firstErr : option error)
    : M (list P) (option error) :=
  match ws with
  | [] => ret firstErr
  | writer :: ws' =>
      let* res := call writer (pw_Write p) in
      forward ws' p (note_failure p res firstErr)
  end.

Definition Write (w : SingleInMultiOutPipeWriter) (p : bytes)
    : M (list P) (Z * option error) :=
  if closed w then ret (0, Some ErrClosedPipe)
  else
    let* firstErr := forward (writers w) p None in
    match firstErr with
    | Some e => ret (len p, Some e)
    | None => ret (len p, None)
    end.

(** [for _, closer := range w.closers { ... }], collecting [errs]. *)
Fixpoint close_each (cs : list nat) (errs : list error)
    : M (list P) (list error) :=
  match cs with
  | [] => ret errs
  | c :: cs' =>
      let* err := call c pw_Close in
      close_each cs' (match err with
                      | Some e => errs ++ [e]
                      | None => errs
                      end)
  end.

(** [Close] also yields the writer, whose [closed] flag it sets. *)
Definition Close (w : SingleInMultiOutPipeWriter)
    : M (list P) (option error * SingleInMultiOutPipeWriter) :=
  if closed w then ret (None, w)
  else
    let w' := {| writers := writers w; closers := closers w;
                 closed := true |} in
    let* errs := close_each (closers w) [] in
    match errs with
    | e :: _ => ret (Some e, w')
    | [] => ret (None, w')
    end.

Definition Reader_Close (r : SingleInMultiOutPipeReader)
    : M (list P) (option error) :=
  match closer r with
  | Some c => call c pr_Close
  | None => ret None
  end.

End Broadcaster.

(** ** Go's [io.Pipe], as the broadcaster and its consumers see it

    An [io.Pipe] has no buffer: a write on the write half returns once the
    consumer of the read half has taken every byte, and never returns if
    nobody reads.  A pipe is closed from either half; writing to a closed
    pipe fails with [io.ErrClosedPipe], and both [Close] methods return
    nil. *)

Inductive read_half : Type :=
  | Idle           (* nobody reads: a write blocks *)
  | Draining       (* a consumer reads until end of stream *)
  | ReadClosed.    (* PipeReader.Close was called *)

Record pipe : Type := {
  received : bytes;        (* what the consumer has read so far, in order *)
  rd : read_half;
  wr_closed : bool         (* PipeWriter.Close was called: the consumer
                              sees end of stream *)
}.

Definition PipeWriter_Write (p : bytes) (x : pipe)
    : outcome ((Z * option error) * pipe) :=
  if wr_closed x then Ret ((0, Some ErrClosedPipe), x)
  else match rd x with
       | ReadClosed => Ret ((0, Some ErrClosedPipe), x)
       | Idle => Blocked
       | Draining =>
           Ret ((len p, None),
                {| received := received x ++ p; rd := rd x;
                   wr_closed := wr_closed x |})
       end.

Definition PipeWriter_Close (x : pipe) : outcome (option error * pipe) :=
  Ret (None, {| received := received x; rd := rd x; wr_closed := true |}).

Definition PipeReader_Close (x : pipe) : outcome (option error * pipe) :=
  Ret (None, {| received := received x; rd := ReadClosed;
                wr_closed := wr_closed x |}).

#[export] Instance io_pipe_ends : PipeEnds pipe := {
  pw_Write := PipeWriter_Write;
  pw_Close := PipeWriter_Close;
  pr_Close := PipeReader_Close
}.

(** [io.Pipe()]: a fresh pipe, named by its place in the store. *)
Definition new_pipe : pipe :=
  {| received := []; rd := Idle; wr_closed := false |}.

Definition io_Pipe : M (list pipe) nat :=
  fun h => Ret (length h, h ++ [new_pipe]).

(** The consumer task bound to a read-endpoint starts reading it to the end
    of the stream ([conciergeClient.PostImage(pOuts[0], ...)] and
    [genaiClient.ReadGasGuagePic(ctx, pOuts[1])] in main.go). *)
Definition drain (x : pipe) : pipe :=
  match rd x with
  | Idle => {| received := received x; rd := Draining;
               wr_closed := wr_closed x |}
  | _ => x
  end.

Definition consume (r : SingleInMultiOutPipeReader) : M (list pipe) unit :=
  fun h => match h !! Reader r with
           | None => Panicked
           | Some x => Ret (tt, <[Reader r := drain x]> h)
           end.

Fixpoint consume_all (rs : list SingleInMultiOutPipeReader)
    : M (list pipe) unit :=
  match rs with
  | [] => ret tt
  | r :: rs' => let* _ := consume r in consume_all rs'
  end.

(** The loop of [SingleInMultiOutPipe]: turn [i] fills [writers[i]],
    [closers[i]] and [readers[i]]; the three slices grow here by one entry
    a turn, in the order the loop assigns them. *)
Fixpoint make_pipes (k : nat) (ws cs : list nat)
    (rs : list SingleInMultiOutPipeReader)
    : M (list pipe)
        (list nat * list nat * list SingleInMultiOutPipeReader) :=
  match k with
  | O => ret (ws, cs, rs)
  | S k' =>
      let* i := io_Pipe in
      make_pipes k' (ws ++ [i]) (cs ++ [i])
                 (rs ++ [{| Reader := i; closer := Some i |}])
  end.

(** [make] panics on a negative length. *)
Definition SingleInMultiOutPipe (readerCount : Z)
    : M (list pipe)
        (SingleInMultiOutPipeWriter * list SingleInMultiOutPipeReader) :=
  if readerCount <? 0 then fun _ => Panicked
  else
    let* made := make_pipes (Z.to_nat readerCount) [] [] [] in
    let '(ws, cs, rs) := made in
    ret ({| writers := ws; closers := cs; closed := false |}, rs).

(** The producer: one [Write] per chunk, whatever each returns. *)
Fixpoint write_chunks (w : SingleInMultiOutPipeWriter) (chunks : list bytes)
    : M (list pipe) (list (Z * option error)) :=
  match chunks with
  | [] => ret []
  | p :: chunks' =>
      let* r := Write w p in
      let* rs := write_chunks w chunks' in
      ret (r :: rs)
  end.

(** ** Errors as text *)

(** [err.Error()], for the [%v] of [fmt.Errorf]. *)
Definition Error (e : error) : string :=
  match e with
  | ErrClosedPipe => "io: read/write on closed pipe"
  | ErrShortWrite => "short write"
  | ErrOther msg => msg
  end.

(** ** internal/concierge/concierge.go *)

Module concierge.

Record Client : Type := { addr : string; token : string }.

Definition NewClient (addr token : string) : Client :=
  {| addr := addr; token := token |}.

(** What the library calls of [PostImage] do and return: the multipart
    writer (its bytes go to [body]), the reads of [image], the HTTP
    request and the decoding of the answer. *)
Record calls : Type := {
  CreateFormFile : bytes * option error;   (* part header, error *)
  image : list bytes * option error;       (* the chunks read, in order,
                                              and the error that ends them
                                              (nil at end of stream) *)
  WriteField : string -> string -> bytes;  (* field name, value *)
  writer_Close : bytes * option error;     (* closing boundary, error *)
  NewRequest : option error;
  Do : option error;
  Decode : string * option error           (* result.Key, error *)
}.

(** [io.Copy(fileWriter, image)]: every chunk read is appended to the
    buffer behind the multipart writer. *)
Fixpoint io_Copy (body : bytes) (chunks : list bytes) : bytes :=
  match chunks with
  | [] => body
  | chunk :: chunks' => io_Copy (body ++ chunk) chunks'
  end.

(** [PostImage], with the content of [body] when it returns. *)
Definition PostImage_body (c : Client) (env : calls) (mimeType : string)
    : (string * option error) * bytes :=
  let body : bytes := [] in
  let '(header, err) := CreateFormFile env in
  let body := body ++ header in
  match err with
  | Some e => ((EmptyString, Some e), body)
  | None =>
      let '(chunks, err) := image env in
      let body := io_Copy body chunks in
      match err with
      | Some e => ((EmptyString, Some e), body)
      | None =>
          let body := body ++ WriteField env "mime" mimeType in
          (* the value is fmt.Sprintf of 60*24*2 *)
          let body := body ++ WriteField env "ttl" "2880" in
          let '(boundary, err) := writer_Close env in
          let body := body ++ boundary in
          match err with
          | Some e => ((EmptyString, Some e), body)
          | None =>
              match NewRequest env with
              | Some e => ((EmptyString, Some e), body)
              | None =>
                  match Do env with
                  | Some e => ((EmptyString, Some e), body)
                  | None =>
                      let '(key, err) := Decode env in
                      match err with
                      | Some e => ((EmptyString, Some e), body)
                      | None =>
                          ((addr c ++ "/luggage/" ++ key, None), body)%string
                      end
                  end
              end
          end
      end
  end.

Definition PostImage (c : Client) (env : calls) (mimeType : string)
    : string * option error :=
  fst (PostImage_body c env mimeType).

(** What [PostImage] does with the stream, in the order it does it: a
    turn of [io.Copy] reads a chunk from [image] and writes it to the
    part, and [http.DefaultClient.Do] sends the request made from [body].
    [held] is the content of [body] at that moment. *)
Inductive effect : Type :=
  | Copied (chunk : bytes)
  | Sent (url : string).

Record moment : Type := { what : effect; held : bytes }.

Fixpoint io_Copy_moments (body : bytes) (chunks : list bytes)
    : list moment :=
  match chunks with
  | [] => []
  | chunk :: chunks' =>
      {| what := Copied chunk; held := body ++ chunk |}
      :: io_Copy_moments (body ++ chunk) chunks'
  end.

Definition PostImage_moments (c : Client) (env : calls) (mimeType : string)
    : list moment :=
  let url := (addr c ++ "/luggage")%string in
  let body : bytes := [] in
  let '(header, err) := CreateFormFile env in
  let body := body ++ header in
  match err with
  | Some _ => []
  | None =>
      let '(chunks, err) := image env in
      let copied := io_Copy_moments body chunks in
      let body := io_Copy body chunks in
      match err with
      | Some _ => copied
      | None =>
          let body := body ++ WriteField env "mime" mimeType in
          let body := body ++ WriteField env "ttl" "2880" in
          let '(boundary, err) := writer_Close env in
          let body := body ++ boundary in
          match err with
          | Some _ => copied
          | None =>
              match NewRequest env with
              | Some _ => copied
              | None => copied ++ [{| what := Sent url; held := body |}]
              end
          end
      end
  end.

End concierge.

(** ** internal/gemini/gemini.go *)

Module gemini.

Record GasMeterReadResult : Type := {
  Read : string;
  Date : string;
  ReadAt : Z;          (* time.Time, as an instant *)
  ItTakes : string
}.

(** What the Files API and Genkit return to [ReadGasGuagePic]. *)
Record calls : Type := {
  Upload : option error;
  GenerateData : option GasMeterReadResult * option error;
  since_start : string;      (* time.Since(start).String() *)
  now : Z                    (* time.Now() *)
}.

Definition ReadGasGuagePic (env : calls)
    : outcome (option GasMeterReadResult * option error) :=
  match Upload env with
  | Some err =>
      Ret (None, Some (ErrOther ("failed to upload: " ++ Error err)))
  | None =>
      let '(out, err) := GenerateData env in
      match err with
      | Some err =>
          Ret (None, Some (ErrOther ("failed to analyze: " ++ Error err)))
      | None =>
          match out with
          | None => Panicked            (* out.ItTakes on a nil pointer *)
          | Some o =>
              Ret (Some {| Read := Read o; Date := Date o;
                           ReadAt := now env;
                           ItTakes := since_start env |}, None)
          end
      end
  end.

End gemini.

(** ** main.go *)

Record Luggage : Type := {
  GasMeterReadResult : option gemini.GasMeterReadResult;  (* embedded pointer *)
  SrcImageURL : string
}.

(** A buffered Go channel. *)
Record chan (A : Type) : Type := {
  buf : list A;
  cap : nat;
  chan_closed : bool
}.
Arguments buf {A} c.
Arguments cap {A} c.
Arguments chan_closed {A} c.

(** [make(chan A, n)] *)
Definition make_chan {A} (n : nat) : chan A :=
  {| buf := []; cap := n; chan_closed := false |}.

(** [ch <- a]: panics on a closed channel, waits while the buffer is
    full. *)
Definition chan_send {A} (a : A) : M (chan A) unit :=
  fun ch =>
    if chan_closed ch then Panicked
    else if (length (buf ch) <? cap ch)%nat then
      Ret (tt, {| buf := buf ch ++ [a]; cap := cap ch;
                  chan_closed := false |})
    else Blocked.

(** [close(ch)]: panics on a closed channel. *)
Definition chan_close {A} : M (chan A) unit :=
  fun ch =>
    if chan_closed ch then Panicked
    else Ret (tt, {| buf := buf ch; cap := cap ch; chan_closed := true |}).

(** [chLuggage = make(chan *Luggage, 10)] *)
Definition chLuggage : chan Luggage := make_chan 10.

(** The single-shot branch of [main] from [wg.Wait()] on: [post] and
    [read] are what the two consumer tasks assigned to
    [srcImgStoredURL, conciergeErr] and to [readResult, geminiErr]. *)
Definition main_singleShot (post : string * option error)
    (read : option gemini.GasMeterReadResult * option error)
    : M (chan Luggage) unit :=
  let '(srcImgStoredURL, conciergeErr) := post in
  let '(readResult, geminiErr) := read in
  if negb (is_nil geminiErr) then ret tt
  else if is_nil readResult then ret tt
  else
    let l := {| GasMeterReadResult := readResult;
                SrcImageURL := srcImgStoredURL |} in
    chan_send l.

(** The task started by [mqttReadGuageSubHandler], from [wg.Wait()] on.
    Each consumer task assigns the result of its call before it looks at
    the error, and its [return] leaves that task only. *)
Definition mqttReadGuageSubHandler (post : string * option error)
    (read : option gemini.GasMeterReadResult * option error)
    : M (chan Luggage) unit :=
  let '(srcImgStoredURL, _) := post in
  let '(readResult, _) := read in
  let l := {| GasMeterReadResult := readResult;
              SrcImageURL := srcImgStoredURL |} in
  chan_send l.

(** ** Vocabulary of the statements *)

(** How one forward of [Write] failed, if it did: its error, or a short
    write. *)
Definition failure (p : bytes) (r : Z * option error) : option error :=
  match snd r with
  | Some e => Some e
  | None => if fst r =? len p then None else Some ErrShortWrite
  end.

(** The failure of the first forward that failed, in the order of the
    writers. *)
Fixpoint first_failure (p : bytes) (rs : list (Z * option error))
    : option error :=
  match rs with
  | [] => None
  | r :: rs' =>
      match failure p r with
      | Some e => Some e
      | None => first_failure p rs'
      end
  end.

(** The first error of a list of [Close] results. *)
Fixpoint first_error (es : list (option error)) : option error :=
  match es with
  | [] => None
  | Some e :: _ => Some e
  | None :: es' => first_error es'
  end.

(** The endpoints that [SingleInMultiOutPipe] returns when its [n] pipes
    take the places [base], ..., [base + n - 1] of the store. *)
Definition writer_at (base n : nat) (closed : bool)
    : SingleInMultiOutPipeWriter :=
  {| writers := seq base n; closers := seq base n; closed := closed |}.

Definition reader_at (i : nat) : SingleInMultiOutPipeReader :=
  {| Reader := i; closer := Some i |}.

Definition readers_at (base n : nat) : list SingleInMultiOutPipeReader :=
  reader_at <$> seq base n.

(** Calls on the write-endpoint, and what they return. *)
Inductive endpoint_call : Type :=
  | CallWrite (p : bytes)
  | CallClose.

Inductive endpoint_result : Type :=
  | Wrote (r : Z * option error)
  | Closed (e : option error).

Section Calls.
Context {P : Type} `{PipeEnds P}.

Fixpoint run_calls (w : SingleInMultiOutPipeWriter)
    (cs : list endpoint_call)
    : M (list P) (list endpoint_result * SingleInMultiOutPipeWriter) :=
  match cs with
  | [] => ret ([], w)
  | CallWrite p :: cs' =>
      let* r := Write w p in
      let* rest := run_calls w cs' in
      ret (Wrote r :: fst rest, snd rest)
  | CallClose :: cs' =>
      let* r := Close w in
      let* rest := run_calls (snd r) cs' in
      ret (Closed (fst r) :: fst rest, snd rest)
  end.
End Calls.

(** What a call on a closed write-endpoint returns. *)
Definition refused (c : endpoint_call) : endpoint_result :=
  match c with
  | CallWrite _ => Wrote (0, Some ErrClosedPipe)
  | CallClose => Closed None
  end.

(** A writer and closer with fixed answers, to stand where a pipe fails:
    [Write] takes at most [takes] bytes and returns [write_err], [Close]
    returns [close_err]. *)
Record stub : Type := {
  takes : nat;
  write_err : option error;
  close_err : option error;
  taken : bytes;
  closes : nat
}.

#[export] Instance stub_ends : PipeEnds stub := {
  pw_Write p s :=
    Ret ((len (take (takes s) p), write_err s),
         {| takes := takes s; write_err := write_err s;
            close_err := close_err s; taken := taken s ++ take (takes s) p;
            closes := closes s |});
  pw_Close s :=
    Ret (close_err s,
         {| takes := takes s; write_err := write_err s;
            close_err := close_err s; taken := taken s;
            closes := S (closes s) |});
  pr_Close s := Ret (None, s)
}.

(** A whole broadcast: the endpoints are made, every consumer starts
    draining its read-endpoint, the producer writes the chunks and closes
    the write-endpoint. *)
Definition broadcast (readerCount : Z) (chunks : list bytes)
    : M (list pipe)
        (list SingleInMultiOutPipeReader * list (Z * option error)
         * option error) :=
  let* made := SingleInMultiOutPipe readerCount in
  let* _ := consume_all (snd made) in
  let* results := write_chunks (fst made) chunks in
  let* closed := Close (fst made) in
  ret (snd made, results, fst closed).

(** A pipe whose consumer has read [b] and goes on reading; the same pipe
    after the end of the stream. *)
Definition draining (b : bytes) : pipe :=
  {| received := b; rd := Draining; wr_closed := false |}.

Definition drained (b : bytes) : pipe :=
  {| received := b; rd := Draining; wr_closed := true |}.

(** A pipe after its consumer took the chunk [p]. *)
Definition took (p : bytes) (x : pipe) : pipe :=
  {| received := received x ++ p; rd := rd x; wr_closed := wr_closed x |}.

(** A sibling that is still read and not closed. *)
Definition surviving (x : pipe) : Prop :=
  rd x = Draining /\ wr_closed x = false.

(** Inputs of the examples. *)
Definition chunk : bytes := [Byte.x4a; Byte.x46; Byte.x49; Byte.x46].

Definition steady : stub :=
  {| takes := 8; write_err := None; close_err := None;
     taken := []; closes := 0 |}.

Definition short : stub :=
  {| takes := 1; write_err := None; close_err := None;
     taken := []; closes := 0 |}.

Definition failing (msg : string) : stub :=
  {| takes := 8; write_err := Some (ErrOther msg);
     close_err := Some (ErrOther msg); taken := []; closes := 0 |}.

(** [l.Read] on a [*Luggage]: the field is promoted from the embedded
    pointer, and reading it through a nil pointer panics (the task that
    receives from [chLuggage] calls [strconv.ParseFloat(readResult.Read,
    64)]). *)
Definition Luggage_Read (l : Luggage) : outcome string :=
  match GasMeterReadResult l with
  | Some r => Ret (gemini.Read r)
  | None => Panicked
  end.

(** A [PostImage] whose image arrives as [k] chunks of one byte, with an
    empty multipart framing and every call succeeding. *)
Definition one_byte_chunks (k : nat) : concierge.calls :=
  {| concierge.CreateFormFile := ([], None);
     concierge.image := (replicate k [Byte.xff], None);
     concierge.WriteField := fun _ _ => [];
     concierge.writer_Close := ([], None);
     concierge.NewRequest := None;
     concierge.Do := None;
     concierge.Decode := ("k"%string, None) |}.

(** Whether [PostImage] gets as far as sending the request. *)
Definition reaches_Do (env : concierge.calls) : bool :=
  is_nil (snd (concierge.CreateFormFile env))
  && is_nil (snd (concierge.image env))
  && is_nil (snd (concierge.writer_Close env))
  && is_nil (concierge.NewRequest env).

(** C9 as it is written, for the archival consumer: what [PostImage] holds
    in memory is bounded whatever the length of the stream, as long as the
    chunks are small. *)
Definition PostImage_memory_bounded : Prop :=
  exists bound : nat, forall k : nat,
    (length (snd (concierge.PostImage_body
                    (concierge.NewClient "http://concierge" "t")
                    (one_byte_chunks k) "image/jpeg")) <= bound)%nat.

(** A [PostImage] that fails before it reads: [CreateFormFile] returns an
    error. *)
Definition no_form_file : concierge.calls :=
  {| concierge.CreateFormFile := ([], Some (ErrOther "no part"));
     concierge.image := ([chunk], None);
     concierge.WriteField := fun _ _ => [];
     concierge.writer_Close := ([], None);
     concierge.NewRequest := None;
     concierge.Do := None;
     concierge.Decode := ("k"%string, None) |}.

Definition reading : gemini.GasMeterReadResult :=
  {| gemini.Read := "123.4"; gemini.Date := "2025-01-01";
     gemini.ReadAt := 0; gemini.ItTakes := "2s" |}.


(** ** Further vocabulary for the broadcaster *)

(** A pipe after its write half was closed: the consumer keeps what it
    received and then sees the end of the stream. *)
Definition ended (x : pipe) : pipe :=
  {| received := received x; rd := rd x; wr_closed := true |}.

(** Whether a pipe takes a write: it is open and its consumer reads. *)
Definition accepting (x : pipe) : bool :=
  negb (wr_closed x) && match rd x with Draining => true | _ => false end.

(** [len(readers)] of the slice that the constructor returns. *)
Definition len_readers (rs : list SingleInMultiOutPipeReader) : Z :=
  Z.of_nat (length rs).

(** [make] panics, with [len out of range], also for a length whose slice
    does not fit the address space that the runtime manages.  That limit
    depends on the platform; a slice of [2^27] interface values is within
    it on every platform of Go.  Whether the machine has the memory is not
    modelled. *)
Definition max_make_len : Z := 2 ^ 27.

(** ** The copy task of [main]

    [go func() { defer pIn.Close(); io.Copy(pIn, img) }()].  Go's
    [io.Copy] reads the source chunk by chunk and writes each chunk to the
    destination; it stops at the first write that reports an error or a
    short count, and at the end or the first error of the source.
    [reads] are the chunks the source yields, and [er] is the error that
    ends them, nil at the end of the file. *)

Definition errInvalidWrite : error := ErrOther "invalid write result".

Section CopyTask.
Context {P : Type} `{PipeEnds P}.

Fixpoint io_Copy (dst : SingleInMultiOutPipeWriter) (reads : list bytes)
    (er : option error) (written : Z) : M (list P) (Z * option error) :=
  match reads with
  | [] => ret (written, er)
  | buf :: reads' =>
      let nr := len buf in
      if 0 <? nr then
        let* res := Write dst buf in
        let invalid := (fst res <? 0) || (nr <? fst res) in
        let nw := if invalid then 0 else fst res in
        let ew := if invalid && is_nil (snd res) then Some errInvalidWrite
                  else snd res in
        let written := written + nw in
        match ew with
        | Some e => ret (written, Some e)
        | None =>
            if negb (nr =? nw) then ret (written, Some ErrShortWrite)
            else io_Copy dst reads' er written
        end
      else io_Copy dst reads' er written
  end.

(** The task: the result of [io.Copy] (which [main] drops) and the
    write-endpoint after the deferred [Close]. *)
Definition copy_task (pIn : SingleInMultiOutPipeWriter)
    (reads : list bytes) (er : option error)
    : M (list P) ((Z * option error) * SingleInMultiOutPipeWriter) :=
  let* copied := io_Copy pIn reads er 0 in
  let* closed := Close pIn in
  ret (copied, snd closed).

End CopyTask.

(** ** The task of [main] that receives from [chLuggage]

    [for { select { case <-ctx.Done(): return
                    case readResult, ok := <-chLuggage: ... } }],
    while the context is not cancelled.  [float64] values and
    [strconv.ParseFloat] are left open; [sensorServer.SetValue] is known by
    its calls only. *)

(** Where the loop stands once the channel is empty. *)
Inductive sink_end : Type :=
  | Waiting        (* in the [select], for the next value *)
  | Returned.      (* the channel was closed: [!ok] *)

Section Sink.
Variable float64 : Type.
Variable ParseFloat : string -> float64 * option error.

(** One turn of the loop for a received value: the call of [SetValue] it
    makes, if any. *)
Definition sink_turn (readResult : Luggage)
    : outcome (option (float64 * Luggage)) :=
  match Luggage_Read readResult with
  | Ret s =>
      let '(read, err) := ParseFloat s in
      match err with
      | Some _ => Ret None                       (* log, continue *)
      | None => Ret (Some (read, readResult))    (* SetValue(read, readResult) *)
      end
  | Blocked => Blocked
  | Panicked => Panicked
  end.

(** The turns for the values the channel holds, in the order they are
    received, with the calls of [SetValue] made so far. *)
Fixpoint sink_loop (pending : list Luggage) (closed : bool)
    (calls : list (float64 * Luggage))
    : outcome (list (float64 * Luggage) * sink_end) :=
  match pending with
  | [] => Ret (calls, if closed then Returned else Waiting)
  | readResult :: pending' =>
      match sink_turn readResult with
      | Ret (Some c) => sink_loop pending' closed (calls ++ [c])
      | Ret None => sink_loop pending' closed calls
      | Blocked => Blocked
      | Panicked => Panicked
      end
  end.

Definition sink : M (chan Luggage) (list (float64 * Luggage) * sink_end) :=
  fun ch =>
    match sink_loop (buf ch) (chan_closed ch) [] with
    | Ret r => Ret (r, {| buf := []; cap := cap ch;
                          chan_closed := chan_closed ch |})
    | Blocked => Blocked
    | Panicked => Panicked
    end.

(** Whether [Read] of a luggage parses. *)
Definition parses (l : Luggage) : bool :=
  match GasMeterReadResult l with
  | Some r => is_nil (snd (ParseFloat (gemini.Read r)))
  | None => false
  end.

End Sink.

(** The handler's tasks of several messages, finishing one after the
    other: each job gives what the two consumers returned. *)
Fixpoint handle_all
    (jobs : list ((string * option error)
                  * (option gemini.GasMeterReadResult * option error)))
    : M (chan Luggage) unit :=
  match jobs with
  | [] => ret tt
  | job :: jobs' =>
      let* _ := mqttReadGuageSubHandler (fst job) (snd job) in
      handle_all jobs'
  end.

(** The luggage that the handler builds from a job. *)
Definition luggage_of
    (job : (string * option error)
           * (option gemini.GasMeterReadResult * option error)) : Luggage :=
  {| GasMeterReadResult := fst (snd job); SrcImageURL := fst (fst job) |}.

(** ** gemini.go: [containsOnly] and [ParseAmbiguousDigits]

    A Go string is a sequence of bytes; [for _, c := range s] decodes it
    as UTF-8, one rune a turn, and yields [utf8.RuneError] for a byte that
    starts no valid encoding.  [string(c)] encodes a rune again. *)

Definition byte_of (a : Ascii.ascii) : Z := Z.of_N (Ascii.N_of_ascii a).

Definition char_of (z : Z) : Ascii.ascii := Ascii.ascii_of_N (Z.to_N z).

Definition RuneError : Z := 0xFFFD.

Definition between (lo hi z : Z) : bool := (lo <=? z) && (z <=? hi).

(** The runes that [range s] yields. *)
Fixpoint runes (s : string) : list Z :=
  match s with
  | EmptyString => []
  | String a0 s1 =>
      let b0 := byte_of a0 in
      if b0 <? 0x80 then b0 :: runes s1
      else if negb (between 0xC2 0xF4 b0) then RuneError :: runes s1
      else
        (* the second byte that this first byte accepts *)
        let lo := if b0 =? 0xE0 then 0xA0
                  else if b0 =? 0xF0 then 0x90 else 0x80 in
        let hi := if b0 =? 0xED then 0x9F
                  else if b0 =? 0xF4 then 0x8F else 0xBF in
        match s1 with
        | EmptyString => RuneError :: runes s1
        | String a1 s2 =>
            let b1 := byte_of a1 in
            if negb (between lo hi b1) then RuneError :: runes s1
            else if b0 <? 0xE0 then
              ((b0 - 0xC0) * 64 + (b1 - 0x80)) :: runes s2
            else
              match s2 with
              | EmptyString => RuneError :: runes s1
              | String a2 s3 =>
                  let b2 := byte_of a2 in
                  if negb (between 0x80 0xBF b2) then RuneError :: runes s1
                  else if b0 <? 0xF0 then
                    ((b0 - 0xE0) * 4096 + (b1 - 0x80) * 64 + (b2 - 0x80))
                    :: runes s3
                  else
                    match s3 with
                    | EmptyString => RuneError :: runes s1
                    | String a3 s4 =>
                        let b3 := byte_of a3 in
                        if negb (between 0x80 0xBF b3)
                        then RuneError :: runes s1
                        else
                          ((b0 - 0xF0) * 262144 + (b1 - 0x80) * 4096
                           + (b2 - 0x80) * 64 + (b3 - 0x80))
                          :: runes s4
                    end
              end
        end
  end.

(** [string(c)] for a rune [c]. *)
Definition string_of_rune (c : Z) : string :=
  let three (r : Z) :=
    String (char_of (0xE0 + r / 4096))
      (String (char_of (0x80 + (r / 64) mod 64))
         (String (char_of (0x80 + r mod 64)) EmptyString)) in
  if between 0 0x7F c then String (char_of c) EmptyString
  else if between 0x80 0x7FF c then
    String (char_of (0xC0 + c / 64))
      (String (char_of (0x80 + c mod 64)) EmptyString)
  else if (c <? 0) || (0x10FFFF <? c) || between 0xD800 0xDFFF c then
    three RuneError
  else if c <=? 0xFFFF then three c
  else
    String (char_of (0xF0 + c / 262144))
      (String (char_of (0x80 + (c / 4096) mod 64))
         (String (char_of (0x80 + (c / 64) mod 64))
            (String (char_of (0x80 + c mod 64)) EmptyString))).

(** [strings.HasPrefix(s, prefix)] *)
Fixpoint strings_HasPrefix (s prefix : string) : bool :=
  match prefix, s with
  | EmptyString, _ => true
  | String _ _, EmptyString => false
  | String a prefix', String b s' =>
      if Ascii.eqb a b then strings_HasPrefix s' prefix' else false
  end.

(** [strings.Contains(s, substr)] *)
Fixpoint strings_Contains (s substr : string) : bool :=
  strings_HasPrefix s substr
  || match s with
     | EmptyString => false
     | String _ s' => strings_Contains s' substr
     end.

Fixpoint containsOnly_loop (cs : list Z) (chars : string) : bool :=
  match cs with
  | [] => true
  | c :: cs' =>
      if negb (strings_Contains chars (string_of_rune c)) then false
      else containsOnly_loop cs' chars
  end.

Definition containsOnly (s chars : string) : bool :=
  containsOnly_loop (runes s) chars.

(** [ParseAmbiguousDigits]; [generated] is what [genkit.Generate] returns
    for the prompt made of the two arguments: the text of the answer and
    the error.  [previousValue] enters the prompt only. *)
Definition ParseAmbiguousDigits (generated : string * option error)
    (ambiguousValueString : string) : string * option error :=
  if negb (containsOnly ambiguousValueString ".?0123456789") then
    (EmptyString,
     Some (ErrOther ("ambious value string, " ++ ambiguousValueString
                     ++ " is not valid")))
  else
    let '(text, err) := generated in
    match err with
    | Some e =>
        (EmptyString, Some (ErrOther ("failed to generate: " ++ Error e)))
    | None => (text, None)
    end.

(** The bytes of a string. *)
Definition chars_of (s : string) : list Ascii.ascii :=
  list_ascii_of_string s.

(** ** main.go, first version: [multiWriteCloser]

    [Close] runs the same loop over [m.closers] as the broadcaster's, has
    no [closed] flag, and reports all the errors in one:
    [fmt.Errorf("errors closing writers: %v", errs)], where [%v] prints a
    slice of errors as their messages between brackets, separated by
    spaces. *)

Fixpoint join_errors (errs : list error) : string :=
  match errs with
  | [] => EmptyString
  | [e] => Error e
  | e :: errs' => (Error e ++ " " ++ join_errors errs')%string
  end.

Section MultiWriteCloser.
Context {P : Type} `{PipeEnds P}.

Definition multiWriteCloser_Close (closers : list nat)
    : M (list P) (option error) :=
  let* errs := close_each closers [] in
  if (0 <? length errs)%nat then
    ret (Some (ErrOther ("errors closing writers: ["
                         ++ join_errors errs ++ "]")))
  else ret None.

End MultiWriteCloser.

(** * Facts about the broadcaster, for any writers and closers *)

Lemma insert_middle {A} (pre post : list A) (x y : A) :
  <[length pre := y]> (pre ++ x :: post) = pre ++ y :: post.
Proof.
  replace (length pre) with (length pre + 0)%nat by lia.
  by rewrite insert_app_r.
Qed.

Section BroadcasterFacts.
Context {P : Type} `{PipeEnds P}.

(** A call through the reference of the object that follows [pre]. *)
Lemma call_middle {A} (f : P -> outcome (A * P)) pre x post a x' :
  f x = Ret (a, x') ->
  call (length pre) f (pre ++ x :: post) = Ret (a, pre ++ x' :: post).
Proof.
  intros Hf. unfold call.
  rewrite list_lookup_middle by reflexivity. rewrite Hf.
  by rewrite insert_middle.
Qed.

Lemma note_failure_first p r e :
  note_failure p r (Some e) = Some e.
Proof. destruct r as [n [e'|]]; simpl; by destruct (n =? len p). Qed.

Lemma note_failure_none p r :
  note_failure p r None = failure p r.
Proof.
  destruct r as [n [e'|]]; unfold failure; simpl;
    by destruct (n =? len p).
Qed.

(** The loop of [Write] visits every writer, whatever the earlier ones
    returned. *)
Lemma forward_all p mid rs mid' : forall pre post firstErr,
  Forall3 (fun x r x' => pw_Write p x = Ret (r, x')) mid rs mid' ->
  forward (seq (length pre) (length mid)) p firstErr (pre ++ mid ++ post)
  = Ret (match firstErr with
         | Some e => Some e
         | None => first_failure p rs
         end, pre ++ mid' ++ post).
Proof.
  intros pre post firstErr Hall. revert pre firstErr.
  induction Hall as [|x r x' mid rs mid' Hx _ IH]; intros pre firstErr.
  - simpl. unfold ret. by destruct firstErr.
  - cbn [length seq forward app]. unfold bind.
    rewrite (call_middle _ pre x (mid ++ post) r x' Hx).
    specialize (IH (pre ++ [x']) (note_failure p r firstErr)).
    rewrite length_app, Nat.add_1_r, <- !app_assoc in IH. simpl in IH.
    rewrite IH. f_equal. f_equal.
    destruct firstErr as [e|].
    + by rewrite note_failure_first.
    + rewrite note_failure_none. simpl. by destruct (failure p r).
Qed.

(** The loop of [Close] likewise, collecting the errors in order. *)
Lemma close_each_all mid es mid' : forall pre post errs,
  Forall3 (fun x e x' => pw_Close x = Ret (e, x')) mid es mid' ->
  close_each (seq (length pre) (length mid)) errs (pre ++ mid ++ post)
  = Ret (errs ++ omap id es, pre ++ mid' ++ post).
Proof.
  intros pre post errs Hall. revert pre errs.
  induction Hall as [|x e x' mid es mid' Hx _ IH]; intros pre errs.
  - simpl. unfold ret. by rewrite app_nil_r.
  - cbn [length seq close_each app]. unfold bind.
    rewrite (call_middle _ pre x (mid ++ post) e x' Hx).
    specialize (IH (pre ++ [x'])
                   (match e with Some e0 => errs ++ [e0] | None => errs end)).
    rewrite length_app, Nat.add_1_r, <- !app_assoc in IH. simpl in IH.
    rewrite IH. f_equal. f_equal.
    destruct e as [e0|]; simpl; [|done]. by rewrite <- app_assoc.
Qed.


Lemma Write_closed w p h :
  closed w = true -> Write w p h = Ret ((0, Some ErrClosedPipe), h).
Proof. intros Hc. unfold Write. by rewrite Hc. Qed.

Lemma Close_closed w h :
  closed w = true -> Close w h = Ret ((None, w), h).
Proof. intros Hc. unfold Close. by rewrite Hc. Qed.

Lemma Close_sets_closed w h e w' h' :
  Close w h = Ret ((e, w'), h') -> closed w' = true.
Proof.
  unfold Close. destruct (closed w) eqn:Hc.
  - unfold ret. intros [= _ <- _]. done.
  - unfold bind. destruct (close_each _ _ _) as [[errs h1]| |]; [|done..].
    destruct errs; unfold ret; intros [= _ <- _]; done.
Qed.

Lemma run_calls_closed w cs h :
  closed w = true -> run_calls w cs h = Ret ((refused <$> cs, w), h).
Proof.
  intros Hc. induction cs as [|[p|] cs IH]; [done|..];
    cbn [run_calls]; unfold bind.
  - rewrite Write_closed by done. rewrite IH. done.
  - rewrite Close_closed by done. simpl. rewrite IH. done.
Qed.

(** C3.  [Write] on a write-endpoint that is not closed forwards the chunk
    [p] to every one of its pipes, whatever the forwards return: each pipe
    [x] of the broadcaster is left as its own [Write] of [p] leaves it,
    also after a forward that failed or took fewer bytes.  [Write] returns
    the full length [len p], and as error the failure of the first forward
    that failed (nil when none did). *)
Theorem Write_forwards_to_all (pre mid post : list P) (p : bytes)
    (rs : list (Z * option error)) (mid' : list P) :
  Forall3 (fun x r x' => pw_Write p x = Ret (r, x')) mid rs mid' ->
  Write (writer_at (length pre) (length mid) false) p (pre ++ mid ++ post)
  = Ret ((len p, first_failure p rs), pre ++ mid' ++ post).
Proof.
  intros Hall. unfold Write, writer_at. cbn [closed writers]. unfold bind.
  rewrite (forward_all p mid rs mid' pre post None Hall).
  by destruct (first_failure p rs).
Qed.

(** C4.  Once [Close] has returned on the write-endpoint, every later call
    on it is refused without touching a pipe: whatever calls [cs] were made
    in between, [Write] returns 0 and [io.ErrClosedPipe] and leaves the
    store as it was.  It returns even where a pipe would block or panic,
    since no pipe is called. *)
Theorem Write_after_Close (w w' : SingleInMultiOutPipeWriter)
    (h h' : list P) (e : option error) (cs : list endpoint_call)
    (p : bytes) :
  Close w h = Ret ((e, w'), h') ->
  run_calls w' cs h' = Ret ((refused <$> cs, w'), h') /\
  Write w' p h' = Ret ((0, Some ErrClosedPipe), h').
Proof.
  intros Hclose. apply Close_sets_closed in Hclose. split.
  - by apply run_calls_closed.
  - by apply Write_closed.
Qed.


End BroadcasterFacts.

(** ** The examples of C3, C4 and C5 *)

Lemma Write_forwards_to_all_witness :
  Write (writer_at 0 3 false) chunk [steady; short; failing "gone"]
  = Ret ((4, Some ErrShortWrite),
         [ {| takes := 8; write_err := None; close_err := None;
              taken := chunk; closes := 0 |};
           {| takes := 1; write_err := None; close_err := None;
              taken := [Byte.x4a]; closes := 0 |};
           {| takes := 8; write_err := Some (ErrOther "gone");
              close_err := Some (ErrOther "gone");
              taken := chunk; closes := 0 |} ]).
Proof.
  refine (Write_forwards_to_all [] [steady; short; failing "gone"] [] chunk
            [(4, None); (1, None); (4, Some (ErrOther "gone"))]
            [_; _; _] _).
  repeat constructor.
Defined.

Lemma Write_after_Close_witness :
  let w' := writer_at 0 2 true in
  let h' := [drained chunk; drained chunk] in
  run_calls w' [CallWrite chunk; CallClose; CallWrite []] h'
  = Ret (([Wrote (0, Some ErrClosedPipe); Closed None;
           Wrote (0, Some ErrClosedPipe)], w'), h') /\
  Write w' chunk h' = Ret ((0, Some ErrClosedPipe), h').
Proof.
  apply (Write_after_Close (writer_at 0 2 false) (writer_at 0 2 true)
           [draining chunk; draining chunk] [drained chunk; drained chunk]
           None).
  reflexivity.
Defined.


(** * Facts about broadcasters over [io.Pipe] *)

Lemma make_pipes_spec (k : nat) : forall ws cs rs (h : list pipe),
  make_pipes k ws cs rs h
  = Ret ((ws ++ seq (length h) k, cs ++ seq (length h) k,
          rs ++ readers_at (length h) k),
         h ++ replicate k new_pipe).
Proof.
  induction k as [|k IH]; intros ws cs rs h.
  - simpl. unfold ret, readers_at. simpl. by rewrite !app_nil_r.
  - cbn [make_pipes]. unfold bind, io_Pipe. rewrite IH.
    rewrite length_app, Nat.add_1_r. unfold readers_at.
    cbn [seq fmap list_fmap replicate]. by rewrite <- !app_assoc.
Qed.

Lemma SingleInMultiOutPipe_spec (n : nat) (h : list pipe) :
  SingleInMultiOutPipe (Z.of_nat n) h
  = Ret ((writer_at (length h) n false, readers_at (length h) n),
         h ++ replicate n new_pipe).
Proof.
  unfold SingleInMultiOutPipe.
  destruct (Z.ltb_spec (Z.of_nat n) 0) as [Hneg|_]; [lia|].
  unfold bind. rewrite Nat2Z.id, make_pipes_spec. reflexivity.
Qed.

Lemma consume_all_spec (mid : list pipe) : forall pre post,
  consume_all (readers_at (length pre) (length mid)) (pre ++ mid ++ post)
  = Ret (tt, pre ++ (drain <$> mid) ++ post).
Proof.
  induction mid as [|x mid IH]; intros pre post; [done|].
  unfold readers_at. cbn [length seq fmap list_fmap consume_all].
  unfold bind, consume. cbn [Reader reader_at app].
  rewrite list_lookup_middle by reflexivity. rewrite insert_middle.
  specialize (IH (pre ++ [drain x]) post).
  rewrite length_app, Nat.add_1_r, <- !app_assoc in IH. apply IH.
Qed.

Lemma Forall3_replicate {A B C} (R : A -> B -> C -> Prop) n x y z :
  R x y z -> Forall3 R (replicate n x) (replicate n y) (replicate n z).
Proof. intros Hr. induction n; simpl; by constructor. Qed.

Lemma first_failure_app p rs1 rs2 :
  first_failure p (rs1 ++ rs2)
  = match first_failure p rs1 with
    | Some e => Some e
    | None => first_failure p rs2
    end.
Proof.
  induction rs1 as [|r rs1 IH]; simpl; [done|]. by destruct (failure p r).
Qed.

Lemma first_failure_full p n :
  first_failure p (replicate n (len p, None)) = None.
Proof.
  induction n as [|n IH]; simpl; [done|].
  unfold failure. simpl. by rewrite Z.eqb_refl.
Qed.

(** Surviving pipes take the whole chunk. *)
Lemma surviving_take p (m : list pipe) :
  Forall surviving m ->
  Forall3 (fun x r x' => pw_Write p x = Ret (r, x'))
          m (replicate (length m) (len p, None)) (took p <$> m).
Proof.
  induction 1 as [|x m [Hrd Hwr] _ IH]; simpl; constructor; [|done].
  unfold PipeWriter_Write, took. by rewrite Hwr, Hrd.
Qed.

(** The producer's writes reach every draining pipe, chunk after chunk. *)
Lemma write_chunks_draining n chunks : forall (pre post : list pipe) b,
  write_chunks (writer_at (length pre) n false) chunks
               (pre ++ replicate n (draining b) ++ post)
  = Ret ((fun p => (len p, None)) <$> chunks,
         pre ++ replicate n (draining (b ++ concat chunks)) ++ post).
Proof.
  induction chunks as [|p chunks IH]; intros pre post b.
  - simpl. unfold ret. by rewrite app_nil_r.
  - cbn [write_chunks]. unfold bind.
    assert (Write (writer_at (length pre) n false) p
                  (pre ++ replicate n (draining b) ++ post)
            = Ret ((len p, None),
                   pre ++ replicate n (draining (b ++ p)) ++ post)) as ->.
    { unfold Write, writer_at. cbn [closed writers]. unfold bind.
      pose proof (forward_all p (replicate n (draining b))
                    (replicate n (len p, None))
                    (replicate n (draining (b ++ p))) pre post None) as Hf.
      rewrite length_replicate in Hf. rewrite Hf.
      - by rewrite first_failure_full.
      - by apply Forall3_replicate. }
    rewrite IH. simpl. unfold ret. by rewrite <- app_assoc.
Qed.

Lemma omap_id_replicate_None {A} (n : nat) :
  omap id (replicate n (@None A)) = [].
Proof. induction n as [|n IH]; [reflexivity | exact IH]. Qed.

Lemma Close_draining n (pre post : list pipe) b :
  Close (writer_at (length pre) n false)
        (pre ++ replicate n (draining b) ++ post)
  = Ret ((None, writer_at (length pre) n true),
         pre ++ replicate n (drained b) ++ post).
Proof.
  unfold Close, writer_at. cbn [closed closers writers]. unfold bind.
  pose proof (close_each_all (replicate n (draining b))
                (replicate n None) (replicate n (drained b))
                pre post []) as Hc.
  rewrite length_replicate in Hc. rewrite Hc.
  - by rewrite omap_id_replicate_None.
  - by apply Forall3_replicate.
Qed.

Lemma broadcast_spec (n : nat) (chunks : list bytes) (h0 : list pipe) :
  broadcast (Z.of_nat n) chunks h0
  = Ret ((readers_at (length h0) n, (fun p => (len p, None)) <$> chunks,
          None),
         h0 ++ replicate n (drained (concat chunks))).
Proof.
  unfold broadcast, bind. rewrite SingleInMultiOutPipe_spec. cbn [fst snd].
  pose proof (consume_all_spec (replicate n new_pipe) h0 []) as Hc.
  rewrite length_replicate, !app_nil_r in Hc. rewrite Hc.
  rewrite fmap_replicate. change (drain new_pipe) with (draining []).
  pose proof (write_chunks_draining n chunks h0 [] []) as Hw.
  rewrite !app_nil_r in Hw. rewrite Hw.
  pose proof (Close_draining n h0 [] (concat chunks)) as Hcl.
  rewrite !app_nil_r in Hcl. simpl in Hcl. simpl. rewrite Hcl. reflexivity.
Qed.

(** C1.  For every reader count [n] and every stream cut into [chunks] in
    any way: when the broadcaster is made by [SingleInMultiOutPipe n],
    every consumer drains its read-endpoint, and the producer writes the
    chunks and closes, then every [Write] returns the full length and no
    error, and each of the [n] read-endpoints, every one on a pipe of its
    own, has delivered exactly the bytes of the stream, in order, followed
    by the end of the stream. *)
Theorem broadcast_copies (n : nat) (chunks : list bytes) (h0 : list pipe) :
  exists (rs : list SingleInMultiOutPipeReader) (h : list pipe),
    broadcast (Z.of_nat n) chunks h0
    = Ret ((rs, (fun p => (len p, None)) <$> chunks, None), h) /\
    length rs = n /\
    NoDup (Reader <$> rs) /\
    forall r, r ∈ rs -> h !! Reader r = Some (drained (concat chunks)).
Proof.
  exists (readers_at (length h0) n),
         (h0 ++ replicate n (drained (concat chunks))).
  split; [apply broadcast_spec|]. unfold readers_at. split; [|split].
  - by rewrite length_fmap, length_seq.
  - rewrite <- list_fmap_compose.
    rewrite (list_fmap_ext (Reader ∘ reader_at) id) by done.
    rewrite list_fmap_id. apply NoDup_seq.
  - intros r Hr. apply list_elem_of_fmap in Hr as (i & -> & Hi).
    apply elem_of_seq in Hi. cbn [Reader reader_at].
    rewrite lookup_app_r by lia. apply lookup_replicate_2. lia.
Qed.

(** C10.  [SingleInMultiOutPipe] does not check [readerCount]: with 0 it
    returns a write-endpoint without pipes and no read-endpoint, and makes
    no pipe; every [Write] on that endpoint then returns the full length
    and no error, and the bytes reach nobody: the store stays as it
    was. *)
Theorem no_readers_writes_succeed (chunks : list bytes) (h : list pipe) :
  SingleInMultiOutPipe 0 h
  = Ret (({| writers := []; closers := []; closed := false |}, []), h) /\
  write_chunks {| writers := []; closers := []; closed := false |} chunks h
  = Ret ((fun p => (len p, None)) <$> chunks, h).
Proof.
  split; [reflexivity|].
  induction chunks as [|p chunks IH]; [reflexivity|].
  cbn [write_chunks]. unfold bind at 1. cbn [Write closed writers forward].
  unfold bind at 1. unfold ret at 1. unfold ret at 1.
  unfold bind. rewrite IH. reflexivity.
Qed.

(** C6.  Closing one read-endpoint changes its own pipe and nothing else in
    the store, and does not touch the write-endpoint.  While the sibling
    pipes are still read, a later [Write] returns the full length, gives
    the chunk to every sibling and nothing to the closed pipe, and reports
    the closed pipe as [io.ErrClosedPipe] in its error only.  The siblings
    are left exactly as the same [Write] leaves them when no read-endpoint
    was closed. *)
Theorem Reader_Close_leaves_siblings (pre before after post : list pipe)
    (x : pipe) (p : bytes) :
  Forall surviving before ->
  Forall surviving after ->
  let w := writer_at (length pre) (length (before ++ x :: after)) false in
  let r := reader_at (length pre + length before) in
  let x' := {| received := received x; rd := ReadClosed;
               wr_closed := wr_closed x |} in
  Reader_Close r (pre ++ (before ++ x :: after) ++ post)
  = Ret (None, pre ++ (before ++ x' :: after) ++ post) /\
  Write w p (pre ++ (before ++ x' :: after) ++ post)
  = Ret ((len p, Some ErrClosedPipe),
         pre ++ ((took p <$> before) ++ x' :: (took p <$> after)) ++ post) /\
  (surviving x ->
   Write w p (pre ++ (before ++ x :: after) ++ post)
   = Ret ((len p, None),
          pre ++ ((took p <$> before) ++ took p x :: (took p <$> after))
              ++ post)).
Proof.
  intros Hb Ha w r x'. split; [|split].
  - unfold Reader_Close, r. cbn [closer reader_at].
    pose proof (call_middle pr_Close (pre ++ before) x (after ++ post)
                  None x' eq_refl) as Hc.
    rewrite length_app, <- !app_assoc in Hc. rewrite <- !app_assoc.
    exact Hc.
  - pose proof (Write_pipes := forward_all p (before ++ x' :: after)
        (replicate (length before) (len p, None)
         ++ (0, Some ErrClosedPipe) :: replicate (length after) (len p, None))
        ((took p <$> before) ++ x' :: (took p <$> after)) pre post None).
    unfold Write, w, writer_at. cbn [closed writers]. unfold bind.
    rewrite !length_app in *. cbn [length] in *. rewrite Write_pipes.
    + rewrite first_failure_app, first_failure_full. reflexivity.
    + apply Forall3_app; [by apply surviving_take|].
      constructor; [|by apply surviving_take].
      cbn. unfold PipeWriter_Write. cbn. by destruct (wr_closed x).
  - intros Hx.
    pose proof (Write_pipes := forward_all p (before ++ x :: after)
        (replicate (length (before ++ x :: after)) (len p, None))
        (took p <$> (before ++ x :: after)) pre post None).
    unfold Write, w, writer_at. cbn [closed writers]. unfold bind.
    rewrite Write_pipes.
    + rewrite first_failure_full, fmap_app. reflexivity.
    + apply surviving_take. apply Forall_app. split; [done|].
      by constructor.
Qed.

Lemma Reader_Close_leaves_siblings_witness :
  Reader_Close (reader_at 1)
    [draining chunk; draining chunk; draining chunk]
  = Ret (None, [draining chunk;
                {| received := chunk; rd := ReadClosed; wr_closed := false |};
                draining chunk]) /\
  Write (writer_at 0 3 false) chunk
    [draining chunk;
     {| received := chunk; rd := ReadClosed; wr_closed := false |};
     draining chunk]
  = Ret ((4, Some ErrClosedPipe),
         [draining (chunk ++ chunk);
          {| received := chunk; rd := ReadClosed; wr_closed := false |};
          draining (chunk ++ chunk)]) /\
  (surviving (draining chunk) ->
   Write (writer_at 0 3 false) chunk
     [draining chunk; draining chunk; draining chunk]
   = Ret ((4, None),
          [draining (chunk ++ chunk); draining (chunk ++ chunk);
           draining (chunk ++ chunk)])).
Proof.
  apply (Reader_Close_leaves_siblings [] [draining chunk] [draining chunk] []
           (draining chunk) chunk);
    repeat constructor.
Defined.

(** * Facts about the join and the delivery queue *)

(** Every error path of [PostImage] returns the empty string. *)
Lemma PostImage_error_empty c env mimeType :
  snd (concierge.PostImage c env mimeType) <> None ->
  fst (concierge.PostImage c env mimeType) = EmptyString.
Proof.
  unfold concierge.PostImage, concierge.PostImage_body.
  destruct (concierge.CreateFormFile env) as [header [e1|]]; [done|].
  destruct (concierge.image env) as [chunks [e2|]]; [done|].
  destruct (concierge.writer_Close env) as [boundary [e3|]]; [done|].
  destruct (concierge.NewRequest env) as [e4|]; [done|].
  destruct (concierge.Do env) as [e5|]; [done|].
  destruct (concierge.Decode env) as [key [e6|]]; [done|].
  simpl. congruence.
Qed.

(** The single-shot branch abandons the broadcast when the extraction
    failed or returned nil. *)
Lemma main_singleShot_abandons post read (q : chan Luggage) :
  snd read <> None \/ fst read = None ->
  main_singleShot post read q = Ret (tt, q).
Proof.
  destruct post as [url cerr], read as [[r|] [e|]]; simpl;
    intros [Hf|Hf]; done.
Qed.

(** When [ReadGasGuagePic] returns an error, its result is nil. *)
Lemma ReadGasGuagePic_error_nil env read :
  gemini.ReadGasGuagePic env = Ret read ->
  snd read <> None -> fst read = None.
Proof.
  unfold gemini.ReadGasGuagePic.
  destruct (gemini.Upload env) as [e|]; [by intros [= <-]|].
  destruct (gemini.GenerateData env) as [[o|] [e|]];
    try (by intros [= <-]); done.
Qed.

Lemma chan_send_open {A} (a : A) (q : chan A) :
  chan_closed q = false -> (length (buf q) < cap q)%nat ->
  chan_send a q
  = Ret (tt, {| buf := buf q ++ [a]; cap := cap q; chan_closed := false |}).
Proof.
  intros Hopen Hroom. unfold chan_send. rewrite Hopen.
  by destruct (Nat.ltb_spec (length (buf q)) (cap q)); [|lia].
Qed.

Lemma chan_send_closed {A} (a : A) (q : chan A) :
  chan_closed q = true -> chan_send a q = Panicked.
Proof. intros Hc. unfold chan_send. by rewrite Hc. Qed.

(** [mqttReadGuageSubHandler] sends whatever the consumers returned. *)
Lemma mqttReadGuageSubHandler_always_sends post read (q : chan Luggage) :
  chan_closed q = false -> (length (buf q) < cap q)%nat ->
  mqttReadGuageSubHandler post read q
  = Ret (tt, {| buf := buf q ++ [{| GasMeterReadResult := fst read;
                                    SrcImageURL := fst post |}];
                cap := cap q; chan_closed := false |}).
Proof.
  intros Hopen Hroom. destruct post as [url cerr], read as [r gerr].
  simpl. by apply chan_send_open.
Qed.

(** C2, on the input where the code departs from it.  In
    [mqttReadGuageSubHandler] the extraction fails (nil result and an
    error), and yet a [Luggage] is sent on the empty [chLuggage]: the queue
    then holds one artifact whose reading is the nil pointer, and reading
    [Read] through it panics. *)
Theorem mqttReadGuageSubHandler_sends_nil_reading (url : string)
    (conciergeErr : option error) (geminiErr : error) :
  let l := {| GasMeterReadResult := None; SrcImageURL := url |} in
  mqttReadGuageSubHandler (url, conciergeErr) (None, Some geminiErr)
                          chLuggage
  = Ret (tt, {| buf := [l]; cap := 10; chan_closed := false |}) /\
  Luggage_Read l = Panicked.
Proof. split; reflexivity. Qed.

(** C7.  When the archival consumer [PostImage] fails and the extraction
    returns a reading and no error, both the single-shot branch and
    [mqttReadGuageSubHandler] add exactly one [Luggage] to the open queue,
    with that reading and the empty string as [SrcImageURL]. *)
Theorem archival_failure_empty_reference (c : concierge.Client)
    (env : concierge.calls) (mimeType : string)
    (r : gemini.GasMeterReadResult) (q : chan Luggage) :
  snd (concierge.PostImage c env mimeType) <> None ->
  chan_closed q = false ->
  (length (buf q) < cap q)%nat ->
  let l := {| GasMeterReadResult := Some r; SrcImageURL := EmptyString |} in
  let q' := {| buf := buf q ++ [l]; cap := cap q; chan_closed := false |} in
  main_singleShot (concierge.PostImage c env mimeType) (Some r, None) q
  = Ret (tt, q') /\
  mqttReadGuageSubHandler (concierge.PostImage c env mimeType)
                          (Some r, None) q
  = Ret (tt, q').
Proof.
  intros Hfail Hopen Hroom l q'.
  pose proof (PostImage_error_empty c env mimeType Hfail) as Hurl.
  destruct (concierge.PostImage c env mimeType) as [url cerr].
  simpl in Hurl. subst url. split; simpl; by apply chan_send_open.
Qed.

Lemma archival_failure_empty_reference_witness :
  let l := {| GasMeterReadResult := Some reading;
              SrcImageURL := EmptyString |} in
  let q' := {| buf := [l]; cap := 10; chan_closed := false |} in
  main_singleShot
    (concierge.PostImage (concierge.NewClient "http://concierge" "t")
                         no_form_file "image/jpeg")
    (Some reading, None) chLuggage
  = Ret (tt, q') /\
  mqttReadGuageSubHandler
    (concierge.PostImage (concierge.NewClient "http://concierge" "t")
                         no_form_file "image/jpeg")
    (Some reading, None) chLuggage
  = Ret (tt, q').
Proof.
  apply (archival_failure_empty_reference
           (concierge.NewClient "http://concierge" "t") no_form_file
           "image/jpeg" reading chLuggage).
  - discriminate.
  - reflexivity.
  - simpl. lia.
Defined.

(** C8.  After [close(chLuggage)] a send panics: the handler, which always
    sends, and the single-shot branch, when it has a reading to send, end
    in a panic and do not return as if the artifact had been delivered. *)
Theorem send_after_close_panics (q q' : chan Luggage) (l : Luggage)
    (post : string * option error)
    (read : option gemini.GasMeterReadResult * option error)
    (r : gemini.GasMeterReadResult) :
  chan_close q = Ret (tt, q') ->
  chan_send l q' = Panicked /\
  mqttReadGuageSubHandler post read q' = Panicked /\
  main_singleShot post (Some r, None) q' = Panicked.
Proof.
  intros Hclose.
  assert (chan_closed q' = true) as Hc.
  { unfold chan_close in Hclose. destruct (chan_closed q); [done|].
    by injection Hclose as <-. }
  destruct post as [url cerr], read as [rr gerr]. simpl.
  repeat split; by apply chan_send_closed.
Qed.

Lemma send_after_close_panics_witness :
  chan_send {| GasMeterReadResult := Some reading;
               SrcImageURL := "http://concierge/luggage/k"%string |}
            {| buf := []; cap := 10; chan_closed := true |}
  = Panicked /\
  mqttReadGuageSubHandler ("http://concierge/luggage/k"%string, None)
    (Some reading, None) {| buf := []; cap := 10; chan_closed := true |}
  = Panicked /\
  main_singleShot ("http://concierge/luggage/k"%string, None)
    (Some reading, None) {| buf := []; cap := 10; chan_closed := true |}
  = Panicked.
Proof.
  apply (send_after_close_panics chLuggage
           {| buf := []; cap := 10; chan_closed := true |}).
  reflexivity.
Defined.

(** * Facts about the archival consumer *)

Lemma io_Copy_appends chunks : forall body,
  concierge.io_Copy body chunks = body ++ concat chunks.
Proof.
  induction chunks as [|chunk chunks IH]; intros body; simpl.
  - by rewrite app_nil_r.
  - by rewrite IH, <- app_assoc.
Qed.

(** The turns of [io.Copy]: after the turn [i] the body holds what it
    held before the copy and the chunks read so far. *)
Lemma io_Copy_moments_spec chunks : forall body,
  concierge.io_Copy_moments body chunks
  = imap (fun i read =>
            {| concierge.what := concierge.Copied read;
               concierge.held := body ++ concat (take (S i) chunks) |})
         chunks.
Proof.
  induction chunks as [|chunk chunks IH]; intros body; [done|].
  cbn [concierge.io_Copy_moments imap take concat]. rewrite app_nil_r.
  f_equal. rewrite IH. apply imap_ext. intros i x _. simpl.
  by rewrite <- app_assoc.
Qed.

(** C9, as amended.  The broadcaster holds no byte of the stream: on the
    endpoints of [SingleInMultiOutPipe], with every consumer reading, each
    [Write] returns the full length with every chunk written so far
    already received by each of the [n] consumers.  The archival consumer
    holds all of them: once the multipart part is made, the turn [i] of
    the copy in [PostImage] leaves in the body the part header and the
    first [i + 1] chunks of the stream; the request is sent after the last
    turn, if at all (when the stream ended without error and
    [writer.Close] and [http.NewRequest] returned none), and it is made
    from the final body, which begins with the part header followed by
    all the bytes of the stream. *)
Theorem broadcaster_forwards_PostImage_buffers (n : nat)
    (chunks : list bytes) (h0 : list pipe) (c : concierge.Client)
    (env : concierge.calls) (mimeType : string) :
  snd (concierge.CreateFormFile env) = None ->
  let header := fst (concierge.CreateFormFile env) in
  let stream := fst (concierge.image env) in
  let body := snd (concierge.PostImage_body c env mimeType) in
  (let* made := SingleInMultiOutPipe (Z.of_nat n) in
   let* _ := consume_all (snd made) in
   write_chunks (fst made) chunks) h0
  = Ret ((fun p => (len p, None)) <$> chunks,
         h0 ++ replicate n (draining (concat chunks))) /\
  concierge.PostImage_moments c env mimeType
  = imap (fun i read =>
            {| concierge.what := concierge.Copied read;
               concierge.held := header ++ concat (take (S i) stream) |})
         stream
    ++ (if reaches_Do env
        then [{| concierge.what :=
                   concierge.Sent (concierge.addr c ++ "/luggage");
                 concierge.held := body |}]
        else []) /\
  exists rest : bytes, body = header ++ concat stream ++ rest.
Proof.
  intros Hpart header stream body. split; [|split].
  - unfold bind. rewrite SingleInMultiOutPipe_spec. cbn [fst snd].
    pose proof (consume_all_spec (replicate n new_pipe) h0 []) as Hc.
    rewrite length_replicate, !app_nil_r in Hc. rewrite Hc.
    rewrite fmap_replicate. change (drain new_pipe) with (draining []).
    pose proof (write_chunks_draining n chunks h0 [] []) as Hw.
    by rewrite !app_nil_r in Hw.
  - subst header stream body.
    unfold concierge.PostImage_moments, concierge.PostImage_body,
      reaches_Do.
    destruct (concierge.CreateFormFile env) as [hd e1]. simpl in Hpart.
    subst e1.
    destruct (concierge.image env) as [reads [e2|]]; cbn [fst snd is_nil];
      rewrite io_Copy_moments_spec.
    { by rewrite app_nil_r. }
    destruct (concierge.writer_Close env) as [boundary [e3|]];
      cbn [fst snd is_nil].
    { by rewrite app_nil_r. }
    destruct (concierge.NewRequest env) as [e4|]; cbn [fst snd is_nil].
    { by rewrite app_nil_r. }
    destruct (concierge.Do env) as [e5|]; [done|].
    by destruct (concierge.Decode env) as [key [e6|]].
  - subst header stream body. unfold concierge.PostImage_body.
    destruct (concierge.CreateFormFile env) as [hd e1]. simpl in Hpart.
    subst e1. cbn [fst snd app].
    destruct (concierge.image env) as [reads [e2|]]; cbn [fst snd].
    { exists []. by rewrite io_Copy_appends, app_nil_r. }
    destruct (concierge.writer_Close env) as [boundary e3].
    exists (concierge.WriteField env "mime" mimeType
            ++ concierge.WriteField env "ttl" "2880" ++ boundary).
    rewrite io_Copy_appends.
    destruct e3 as [e3|]; [by rewrite <- !app_assoc|].
    destruct (concierge.NewRequest env) as [e4|]; [by rewrite <- !app_assoc|].
    destruct (concierge.Do env) as [e5|]; [by rewrite <- !app_assoc|].
    destruct (concierge.Decode env) as [key [e6|]]; by rewrite <- !app_assoc.
Qed.

Lemma broadcaster_forwards_PostImage_buffers_witness :
  let c := concierge.NewClient "http://concierge" "t" in
  let env := one_byte_chunks 3 in
  let header := fst (concierge.CreateFormFile env) in
  let stream := fst (concierge.image env) in
  let body := snd (concierge.PostImage_body c env "image/jpeg") in
  (let* made := SingleInMultiOutPipe (Z.of_nat 2) in
   let* _ := consume_all (snd made) in
   write_chunks (fst made) [chunk; chunk]) []
  = Ret ((fun p => (len p, None)) <$> [chunk; chunk],
         [] ++ replicate 2 (draining (concat [chunk; chunk]))) /\
  concierge.PostImage_moments c env "image/jpeg"
  = imap (fun i read =>
            {| concierge.what := concierge.Copied read;
               concierge.held := header ++ concat (take (S i) stream) |})
         stream
    ++ (if reaches_Do env
        then [{| concierge.what :=
                   concierge.Sent (concierge.addr c ++ "/luggage");
                 concierge.held := body |}]
        else []) /\
  exists rest : bytes, body = header ++ concat stream ++ rest.
Proof.
  apply (broadcaster_forwards_PostImage_buffers 2 [chunk; chunk] []
           (concierge.NewClient "http://concierge" "t")
           (one_byte_chunks 3) "image/jpeg").
  reflexivity.
Defined.

(** C9 as it is written fails for the archival consumer: with chunks of
    one byte, the body that [PostImage] holds outgrows every bound as the
    stream gets longer. *)
Lemma PostImage_memory_not_bounded : ~ PostImage_memory_bounded.
Proof.
  intros [bound Hbound]. specialize (Hbound (S bound)).
  unfold concierge.PostImage_body, one_byte_chunks in Hbound.
  cbn [concierge.CreateFormFile concierge.image concierge.writer_Close
       concierge.NewRequest concierge.Do concierge.Decode
       concierge.WriteField snd] in Hbound.
  rewrite io_Copy_appends in Hbound. rewrite !app_nil_r in Hbound.
  cbn [app] in Hbound.
  assert (forall k, length (concat (replicate k [Byte.xff])) = k) as Hlen.
  { induction k as [|k IH]; simpl; [done|]. by rewrite IH. }
  rewrite Hlen in Hbound. lia.
Qed.


(** * More about the broadcaster *)

(** X1.  [SingleInMultiOutPipe] panics (in [make]) on a negative
    [readerCount] and makes nothing.  For a count from 0 to a length that
    [make] accepts, it appends [readerCount] fresh pipes to the store and
    leaves the pipes that were there; it returns an open write-endpoint
    and [readerCount] read-endpoints, where the [i]-th writer, the [i]-th
    closer and the [i]-th read-endpoint (its reader and its closer) all
    name the [i]-th of the new pipes, so that no two read-endpoints share
    a pipe. *)
Theorem SingleInMultiOutPipe_fresh_endpoints (readerCount : Z)
    (h : list pipe) :
  (readerCount < 0 -> SingleInMultiOutPipe readerCount h = Panicked) /\
  (0 <= readerCount <= max_make_len ->
   exists (w : SingleInMultiOutPipeWriter)
          (rs : list SingleInMultiOutPipeReader),
     let h' := h ++ replicate (Z.to_nat readerCount) new_pipe in
     SingleInMultiOutPipe readerCount h = Ret ((w, rs), h') /\
     len_readers rs = readerCount /\
     closed w = false /\
     Reader <$> rs = seq (length h) (Z.to_nat readerCount) /\
     writers w = Reader <$> rs /\
     closers w = Reader <$> rs /\
     Forall (fun r => closer r = Some (Reader r) /\
                      h' !! Reader r = Some new_pipe) rs /\
     NoDup (Reader <$> rs)).
Proof.
  split.
  { intros Hneg. unfold SingleInMultiOutPipe.
    by destruct (Z.ltb_spec readerCount 0); [|lia]. }
  intros [Hpos _].
  exists (writer_at (length h) (Z.to_nat readerCount) false),
         (readers_at (length h) (Z.to_nat readerCount)).
  intros h'. split.
  { rewrite <- (Z2Nat.id readerCount) at 1 by lia.
    apply SingleInMultiOutPipe_spec. }
  assert (Reader <$> readers_at (length h) (Z.to_nat readerCount)
          = seq (length h) (Z.to_nat readerCount)) as Hrs.
  { unfold readers_at. rewrite <- list_fmap_compose.
    rewrite (list_fmap_ext (Reader ∘ reader_at) id) by done.
    apply list_fmap_id. }
  rewrite Hrs. repeat split; try reflexivity.
  - unfold len_readers, readers_at. rewrite length_fmap, length_seq. lia.
  - unfold readers_at. apply Forall_fmap, Forall_forall.
    intros i Hi. apply elem_of_seq in Hi. simpl. split; [done|].
    unfold h'. rewrite lookup_app_r by lia.
    apply lookup_replicate_2. lia.
  - apply NoDup_seq.
Qed.

Lemma SingleInMultiOutPipe_fresh_endpoints_witness :
  exists (w : SingleInMultiOutPipeWriter)
         (rs : list SingleInMultiOutPipeReader),
    let h' := [draining chunk] ++ replicate (Z.to_nat 2) new_pipe in
    SingleInMultiOutPipe 2 [draining chunk] = Ret ((w, rs), h') /\
    len_readers rs = 2 /\
    closed w = false /\
    Reader <$> rs = seq (length [draining chunk]) (Z.to_nat 2) /\
    writers w = Reader <$> rs /\
    closers w = Reader <$> rs /\
    Forall (fun r => closer r = Some (Reader r) /\
                     h' !! Reader r = Some new_pipe) rs /\
    NoDup (Reader <$> rs).
Proof.
  apply (proj2 (SingleInMultiOutPipe_fresh_endpoints 2 [draining chunk])).
  unfold max_make_len. lia.
Defined.

Section MoreBroadcasterFacts.
Context {P : Type} `{PipeEnds P}.

(** The loop of [Write] does not get past a forward that does not
    return. *)
Lemma forward_blocked p before rs before' x :
  forall pre rest firstErr (k : nat),
  Forall3 (fun y r y' => pw_Write p y = Ret (r, y')) before rs before' ->
  pw_Write p x = Blocked ->
  forward (seq (length pre) (length before + S k)) p firstErr
          (pre ++ before ++ x :: rest)
  = Blocked.
Proof.
  intros pre rest firstErr k Hall Hx. revert pre firstErr.
  induction Hall as [|y r y' before rs before' Hy _ IH]; intros pre firstErr.
  - cbn [app length seq forward Nat.add]. unfold bind, call.
    rewrite list_lookup_middle by reflexivity. by rewrite Hx.
  - cbn [app length seq forward Nat.add]. unfold bind.
    rewrite (call_middle _ pre y (before ++ x :: rest) r y' Hy).
    specialize (IH (pre ++ [y']) (note_failure p r firstErr)).
    rewrite length_app, Nat.add_1_r, <- !app_assoc in IH. apply IH.
Qed.

Lemma first_failure_none_iff p (rs : list (Z * option error)) :
  first_failure p rs = None <-> Forall (fun r => r = (len p, None)) rs.
Proof.
  induction rs as [|[n e] rs IH]; simpl.
  - split; [constructor|done].
  - unfold failure. cbn [fst snd]. destruct e as [e|].
    + split; [done|]. intros Hall. by inversion Hall.
    + destruct (Z.eqb_spec n (len p)) as [->|Hne].
      * rewrite IH. split; [by constructor|]. intros Hall.
        by inversion Hall.
      * split; [done|]. intros Hall. inversion Hall as [|? ? Hr _].
        congruence.
Qed.

(** X2.  On an open write-endpoint whose forwards all return, [Write]
    reports no error exactly when every pipe took the whole chunk without
    error; any short write or error of any pipe shows in the result. *)
Theorem Write_error_nil_iff (pre mid post : list P) (p : bytes)
    (rs : list (Z * option error)) (mid' : list P) :
  Forall3 (fun x r x' => pw_Write p x = Ret (r, x')) mid rs mid' ->
  exists e : option error,
    Write (writer_at (length pre) (length mid) false) p (pre ++ mid ++ post)
    = Ret ((len p, e), pre ++ mid' ++ post) /\
    (e = None <-> Forall (fun r => r = (len p, None)) rs).
Proof.
  intros Hall. exists (first_failure p rs). split.
  - unfold Write, writer_at. cbn [closed writers]. unfold bind.
    rewrite (forward_all p mid rs mid' pre post None Hall).
    by destruct (first_failure p rs).
  - apply first_failure_none_iff.
Qed.

End MoreBroadcasterFacts.

Lemma Write_error_nil_iff_witness :
  exists e : option error,
    Write (writer_at 0 2 false) chunk [steady; short]
    = Ret ((len chunk, e),
           [ {| takes := 8; write_err := None; close_err := None;
                taken := chunk; closes := 0 |};
             {| takes := 1; write_err := None; close_err := None;
                taken := [Byte.x4a]; closes := 0 |} ]) /\
    (e = None <-> Forall (fun r : Z * option error => r = (len chunk, None))
                         [(4, None); (1, None)]).
Proof.
  refine (Write_error_nil_iff [] [steady; short] [] chunk
            [(4, None); (1, None)] [_; _] _).
  repeat constructor.
Defined.

(** ** Pipes that stall, close and end *)

Lemma Write_blocked_at (pre before rest : list pipe) (x : pipe) (p : bytes)
    (k : nat) :
  Forall surviving before ->
  rd x = Idle -> wr_closed x = false ->
  Write (writer_at (length pre) (length before + S k) false) p
        (pre ++ before ++ x :: rest)
  = Blocked.
Proof.
  intros Hb Hrd Hwr. unfold Write, writer_at. cbn [closed writers].
  unfold bind.
  rewrite (forward_blocked p before (replicate (length before) (len p, None))
             (took p <$> before) x pre rest None k).
  - reflexivity.
  - by apply surviving_take.
  - cbn. unfold PipeWriter_Write. by rewrite Hwr, Hrd.
Qed.

(** X3.  Back-pressure: while one open pipe has no consumer reading it,
    [Write] never returns, however many of its siblings are being
    drained. *)
Theorem Write_blocks_on_idle_consumer (pre before after post : list pipe)
    (x : pipe) (p : bytes) :
  Forall surviving before ->
  rd x = Idle ->
  wr_closed x = false ->
  Write (writer_at (length pre) (length (before ++ x :: after)) false) p
        (pre ++ (before ++ x :: after) ++ post)
  = Blocked.
Proof.
  intros Hb Hrd Hwr. rewrite length_app. cbn [length].
  rewrite <- app_assoc. cbn [app].
  by apply Write_blocked_at.
Qed.

Lemma Write_blocks_on_idle_consumer_witness :
  Write (writer_at 0 3 false) chunk
        [draining []; new_pipe; draining []]
  = Blocked.
Proof.
  apply (Write_blocks_on_idle_consumer [] [draining []] [draining []] []
           new_pipe chunk); repeat constructor.
Defined.

Lemma Close_pipes (pre mid post : list pipe) :
  Close (writer_at (length pre) (length mid) false) (pre ++ mid ++ post)
  = Ret ((None, writer_at (length pre) (length mid) true),
         pre ++ (ended <$> mid) ++ post).
Proof.
  unfold Close, writer_at. cbn [closed closers writers]. unfold bind.
  rewrite (close_each_all mid (replicate (length mid) None) (ended <$> mid)
             pre post []).
  - by rewrite omap_id_replicate_None.
  - induction mid as [|x mid IH]; simpl; by constructor.
Qed.

(** X5.  [Close] on an open write-endpoint over pipes returns nil and ends
    every stream where it stands: each pipe keeps the bytes its consumer
    received, none added and none lost, and is marked closed; pipes of
    other broadcasters are untouched. *)
Theorem Close_ends_every_stream (pre mid post : list pipe) :
  Close (writer_at (length pre) (length mid) false) (pre ++ mid ++ post)
  = Ret ((None, writer_at (length pre) (length mid) true),
         pre ++ (ended <$> mid) ++ post).
Proof.
  unfold Close, writer_at. cbn [closed closers writers]. unfold bind.
  assert (Forall3 (fun x e x' => pw_Close x = Ret (e, x')) mid
                  (replicate (length mid) None) (ended <$> mid)) as Hall.
  { induction mid as [|x mid IH]; simpl; by constructor. }
  rewrite (close_each_all mid _ _ pre post [] Hall).
  by rewrite omap_id_replicate_None.
Qed.

Lemma first_failure_answers p (mid : list pipe) :
  first_failure p
    ((fun x => if accepting x then (len p, None)
               else (0, Some ErrClosedPipe)) <$> mid)
  = if forallb accepting mid then None else Some ErrClosedPipe.
Proof.
  induction mid as [|x mid IH]; simpl; [done|].
  destruct (accepting x); simpl; [|done].
  unfold failure. simpl. by rewrite Z.eqb_refl.
Qed.

Lemma Write_pipes_returning (pre mid post : list pipe) (p : bytes) :
  Forall (fun x => rd x = Idle -> wr_closed x = true) mid ->
  Write (writer_at (length pre) (length mid) false) p (pre ++ mid ++ post)
  = Ret ((len p,
          if forallb accepting mid then None else Some ErrClosedPipe),
         pre ++ ((fun x => if accepting x then took p x else x) <$> mid)
             ++ post).
Proof.
  intros Hmid. unfold Write, writer_at. cbn [closed writers]. unfold bind.
  rewrite (forward_all p mid
             ((fun x => if accepting x then (len p, None)
                        else (0, Some ErrClosedPipe)) <$> mid)
             ((fun x => if accepting x then took p x else x) <$> mid)
             pre post None).
  - rewrite first_failure_answers. by destruct (forallb accepting mid).
  - induction Hmid as [|x mid Hx _ IH]; simpl; constructor; [|done].
    cbn. unfold PipeWriter_Write, accepting, took.
    destruct (wr_closed x); [done|]. destruct (rd x); simpl; try done.
    by specialize (Hx eq_refl).
Qed.

(** X6.  When no open pipe lacks a consumer, [Write] returns: it reports
    the full length, appends the chunk to every pipe that is open and
    read, leaves every closed pipe as it is, and its error is nil when all
    pipes took the chunk and [io.ErrClosedPipe] otherwise, however many
    pipes are closed. *)
Theorem Write_reaches_exactly_the_open_pipes (pre mid post : list pipe)
    (p : bytes) :
  Forall (fun x => rd x = Idle -> wr_closed x = true) mid ->
  Write (writer_at (length pre) (length mid) false) p (pre ++ mid ++ post)
  = Ret ((len p,
          if forallb accepting mid then None else Some ErrClosedPipe),
         pre ++ ((fun x => if accepting x then took p x else x) <$> mid)
             ++ post).
Proof.
  intros Hmid. unfold Write, writer_at. cbn [closed writers]. unfold bind.
  assert (Forall3 (fun x r x' => pw_Write p x = Ret (r, x')) mid
            ((fun x => if accepting x then (len p, None)
                       else (0, Some ErrClosedPipe)) <$> mid)
            ((fun x => if accepting x then took p x else x) <$> mid))
    as Hall.
  { induction Hmid as [|x mid Hx _ IH]; simpl; constructor; [|done].
    cbn. unfold PipeWriter_Write, accepting, took.
    destruct (wr_closed x); [done|]. destruct (rd x); simpl; try done.
    by specialize (Hx eq_refl). }
  rewrite (forward_all p mid _ _ pre post None Hall).
  rewrite first_failure_answers. by destruct (forallb accepting mid).
Qed.

Lemma Write_reaches_exactly_the_open_pipes_witness :
  Write (writer_at 0 3 false) chunk
        [draining []; drained chunk;
         {| received := []; rd := ReadClosed; wr_closed := false |}]
  = Ret ((4, Some ErrClosedPipe),
         [draining chunk; drained chunk;
          {| received := []; rd := ReadClosed; wr_closed := false |}]).
Proof.
  apply (Write_reaches_exactly_the_open_pipes []
           [draining []; drained chunk;
            {| received := []; rd := ReadClosed; wr_closed := false |}]
           [] chunk).
  repeat constructor; discriminate.
Defined.

Lemma took_took p1 p2 x : took p2 (took p1 x) = took (p1 ++ p2) x.
Proof. unfold took. simpl. by rewrite app_assoc. Qed.

Lemma took_nil x : took [] x = x.
Proof. destruct x. unfold took. simpl. by rewrite app_nil_r. Qed.

Lemma surviving_took p (m : list pipe) :
  Forall surviving m -> Forall surviving (took p <$> m).
Proof. intros Hm. apply Forall_fmap. by eapply Forall_impl. Qed.

Lemma Write_surviving (pre mid post : list pipe) p :
  Forall surviving mid ->
  Write (writer_at (length pre) (length mid) false) p (pre ++ mid ++ post)
  = Ret ((len p, None), pre ++ (took p <$> mid) ++ post).
Proof.
  intros Hmid. unfold Write, writer_at. cbn [closed writers]. unfold bind.
  rewrite (forward_all p mid (replicate (length mid) (len p, None))
             (took p <$> mid) pre post None (surviving_take p mid Hmid)).
  by rewrite first_failure_full.
Qed.

(** X8.  [Close] on a read-endpoint is idempotent on its pipe: it returns
    nil, a second [Close] returns nil again and changes nothing more.  A
    read-endpoint whose [closer] is nil closes nothing. *)
Theorem Reader_Close_twice (h : list pipe) (i : nat) :
  (i < length h)%nat ->
  exists h1 : list pipe,
    Reader_Close (reader_at i) h = Ret (None, h1) /\
    Reader_Close (reader_at i) h1 = Ret (None, h1) /\
    Reader_Close {| Reader := i; closer := None |} h = Ret (None, h).
Proof.
  intros Hi. destruct (lookup_lt_is_Some_2 h i Hi) as [x Hx].
  exists (<[i := {| received := received x; rd := ReadClosed;
                   wr_closed := wr_closed x |}]> h).
  unfold Reader_Close, call. cbn [closer reader_at]. rewrite Hx.
  split; [reflexivity|]. split; [|reflexivity].
  rewrite list_lookup_insert_eq by done. cbn.
  by rewrite list_insert_insert_eq.
Qed.

Lemma Reader_Close_twice_witness :
  exists h1 : list pipe,
    Reader_Close (reader_at 1) [draining chunk; draining chunk]
    = Ret (None, h1) /\
    Reader_Close (reader_at 1) h1 = Ret (None, h1) /\
    Reader_Close {| Reader := 1; closer := None |}
                 [draining chunk; draining chunk]
    = Ret (None, [draining chunk; draining chunk]).
Proof.
  apply (Reader_Close_twice [draining chunk; draining chunk] 1).
  simpl. lia.
Defined.

(** * The copy task *)

Lemma len_app (p q : bytes) : len (p ++ q) = len p + len q.
Proof. unfold len. rewrite length_app. lia. Qed.

Lemma len_zero (p : bytes) : (0 <? len p) = false -> p = [].
Proof.
  unfold len. destruct p; [done|]. intros Hp.
  apply Z.ltb_ge in Hp. simpl in Hp. lia.
Qed.

Lemma io_Copy_surviving reads : forall (pre mid post : list pipe) er written,
  Forall surviving mid ->
  io_Copy (writer_at (length pre) (length mid) false) reads er written
          (pre ++ mid ++ post)
  = Ret ((written + len (concat reads), er),
         pre ++ (took (concat reads) <$> mid) ++ post).
Proof.
  induction reads as [|buf reads IH]; intros pre mid post er written Hmid.
  - simpl. unfold ret. rewrite Z.add_0_r.
    rewrite (list_fmap_ext (took []) id), list_fmap_id; [done|].
    intros i x _. apply took_nil.
  - cbn [io_Copy concat]. destruct (0 <? len buf) eqn:Hnr.
    + unfold bind. rewrite Write_surviving by done. cbn [fst snd is_nil].
      assert ((len buf <? 0) = false) as -> by (apply Z.ltb_ge; unfold len; lia).
      rewrite Z.ltb_irrefl. cbn [orb andb]. rewrite Z.eqb_refl. cbn [negb].
      pose proof (IH pre (took buf <$> mid) post er (written + len buf)
                     (surviving_took buf mid Hmid)) as Hrest.
      rewrite length_fmap in Hrest. rewrite Hrest.
      rewrite len_app, Z.add_assoc, <- list_fmap_compose.
      rewrite (list_fmap_ext (took (concat reads) ∘ took buf)
                             (took (buf ++ concat reads))); [done|].
      intros i x _. apply took_took.
    + apply len_zero in Hnr. subst buf. rewrite IH by done. reflexivity.
Qed.

(** X9.  With every consumer draining, the copy task hands every byte
    read from the source to every read-endpoint, in order, and then ends
    every stream; [io.Copy] returns the number of bytes and the source's
    error.  The consumers see the same end of stream whether the source
    ended or failed. *)
Theorem copy_task_delivers_the_source (pre mid post : list pipe)
    (reads : list bytes) (er : option error) :
  Forall surviving mid ->
  copy_task (writer_at (length pre) (length mid) false) reads er
            (pre ++ mid ++ post)
  = Ret (((len (concat reads), er),
          writer_at (length pre) (length mid) true),
         pre ++ (ended <$> (took (concat reads) <$> mid)) ++ post).
Proof.
  intros Hmid. unfold copy_task, bind.
  rewrite io_Copy_surviving by done.
  pose proof (Close_pipes pre (took (concat reads) <$> mid) post) as Hclose.
  rewrite length_fmap in Hclose. rewrite Hclose. reflexivity.
Qed.

Lemma copy_task_delivers_the_source_witness :
  copy_task (writer_at 0 2 false) [chunk; []; chunk]
            (Some (ErrOther "read error")) [draining []; draining []]
  = Ret (((8, Some (ErrOther "read error")), writer_at 0 2 true),
         [drained (chunk ++ chunk); drained (chunk ++ chunk)]).
Proof.
  apply (copy_task_delivers_the_source [] [draining []; draining []] []
           [chunk; []; chunk] (Some (ErrOther "read error"))).
  repeat constructor.
Defined.

(** X10.  When a read-endpoint is already closed, the copy task stops
    after the first chunk: [Write] forwards that chunk to the surviving
    pipes and reports [io.ErrClosedPipe], [io.Copy] returns it, and the
    deferred [Close] ends the streams.  The surviving consumers receive
    the first chunk only, whatever the source still holds. *)
Theorem copy_task_stops_at_first_error (pre mid post : list pipe)
    (buf : bytes) (reads : list bytes) (er : option error) :
  Forall (fun x => rd x = Idle -> wr_closed x = true) mid ->
  forallb accepting mid = false ->
  buf <> [] ->
  copy_task (writer_at (length pre) (length mid) false) (buf :: reads) er
            (pre ++ mid ++ post)
  = Ret (((len buf, Some ErrClosedPipe),
          writer_at (length pre) (length mid) true),
         pre ++ (ended <$> ((fun x => if accepting x then took buf x else x)
                            <$> mid)) ++ post).
Proof.
  intros Hmid Hclosed Hbuf. unfold copy_task, bind. cbn [io_Copy].
  assert ((0 <? len buf) = true) as ->.
  { apply Z.ltb_lt. unfold len. destruct buf; [done|]. simpl. lia. }
  unfold bind. rewrite Write_pipes_returning by done. rewrite Hclosed.
  cbn [fst snd is_nil].
  assert ((len buf <? 0) = false) as -> by (apply Z.ltb_ge; unfold len; lia).
  rewrite Z.ltb_irrefl. cbn [orb andb]. unfold ret. rewrite Z.add_0_l.
  pose proof (Close_pipes pre
                ((fun x => if accepting x then took buf x else x) <$> mid)
                post) as Hclose.
  rewrite length_fmap in Hclose. rewrite Hclose. reflexivity.
Qed.

Lemma copy_task_stops_at_first_error_witness :
  copy_task (writer_at 0 2 false) [chunk; chunk; chunk] None
            [draining [];
             {| received := []; rd := ReadClosed; wr_closed := false |}]
  = Ret (((4, Some ErrClosedPipe), writer_at 0 2 true),
         [drained chunk;
          {| received := []; rd := ReadClosed; wr_closed := true |}]).
Proof.
  apply (copy_task_stops_at_first_error []
           [draining [];
            {| received := []; rd := ReadClosed; wr_closed := false |}]
           [] chunk [chunk; chunk] None).
  - repeat constructor; discriminate.
  - reflexivity.
  - discriminate.
Defined.

(** * The delivery queue and the receiving task *)

Section SinkFacts.
Variable float64 : Type.
Variable ParseFloat : string -> float64 * option error.

Lemma sink_loop_readings pending : forall closed calls,
  Forall (fun l => GasMeterReadResult l <> None) pending ->
  exists more : list (float64 * Luggage),
    sink_loop float64 ParseFloat pending closed calls
    = Ret (calls ++ more, if closed then Returned else Waiting) /\
    snd <$> more = List.filter (parses float64 ParseFloat) pending /\
    Forall (fun c => exists r, GasMeterReadResult (snd c) = Some r /\
                               ParseFloat (gemini.Read r) = (fst c, None))
           more.
Proof.
  induction pending as [|l pending IH]; intros closed calls Hall.
  - exists []. simpl. by rewrite app_nil_r.
  - inversion Hall as [|? ? Hl Hrest]; subst.
    cbn [sink_loop List.filter]. unfold sink_turn, Luggage_Read, parses.
    destruct (GasMeterReadResult l) as [r|] eqn:Hr; [|done].
    destruct (ParseFloat (gemini.Read r)) as [v [e|]] eqn:Hparse; simpl.
    + destruct (IH closed calls Hrest) as (more & -> & Hsnd & Hmore).
      by exists more.
    + destruct (IH closed (calls ++ [(v, l)]) Hrest)
        as (more & -> & Hsnd & Hmore).
      exists ((v, l) :: more). rewrite <- app_assoc. split; [done|].
      split; [rewrite fmap_cons; by f_equal|].
      constructor; [|done]. exists r. simpl. by rewrite Hparse.
Qed.

(** X11.  The receiving task takes the luggages in the order they were
    queued and calls [SetValue] once for each one whose [Read] parses, with
    the parsed value and that luggage; the others are skipped.  It empties
    the queue, and returns when the channel is closed and waits
    otherwise. *)
Theorem sink_sets_values_in_order (q : chan Luggage) :
  Forall (fun l => GasMeterReadResult l <> None) (buf q) ->
  exists calls : list (float64 * Luggage),
    sink float64 ParseFloat q
    = Ret ((calls, if chan_closed q then Returned else Waiting),
           {| buf := []; cap := cap q; chan_closed := chan_closed q |}) /\
    snd <$> calls = List.filter (parses float64 ParseFloat) (buf q) /\
    Forall (fun c => exists r, GasMeterReadResult (snd c) = Some r /\
                               ParseFloat (gemini.Read r) = (fst c, None))
           calls.
Proof.
  intros Hall.
  destruct (sink_loop_readings (buf q) (chan_closed q) [] Hall)
    as (calls & Hloop & Hsnd & Hcalls).
  exists calls. unfold sink. rewrite Hloop. done.
Qed.

Lemma sink_loop_nil_reading before : forall l after closed calls,
  Forall (fun l => GasMeterReadResult l <> None) before ->
  GasMeterReadResult l = None ->
  sink_loop float64 ParseFloat (before ++ l :: after) closed calls
  = Panicked.
Proof.
  induction before as [|l0 before IH]; intros l after closed calls Hall Hl.
  - cbn [app sink_loop]. unfold sink_turn, Luggage_Read. by rewrite Hl.
  - inversion Hall as [|? ? Hl0 Hrest]; subst.
    cbn [app sink_loop]. unfold sink_turn, Luggage_Read.
    destruct (GasMeterReadResult l0) as [r|]; [|done].
    destruct (ParseFloat (gemini.Read r)) as [v [e|]]; by apply IH.
Qed.

(** X12.  What the handler's missing check leads to: after
    [mqttReadGuageSubHandler] ran with a failed extraction on an open
    queue with room, the receiving task panics when it comes to that
    luggage (it reads [Read] through the nil pointer), whatever was queued
    before. *)
Theorem failed_extraction_crashes_the_sink (q : chan Luggage)
    (post : string * option error) (geminiErr : option error) :
  chan_closed q = false ->
  (length (buf q) < cap q)%nat ->
  Forall (fun l => GasMeterReadResult l <> None) (buf q) ->
  (let* _ := mqttReadGuageSubHandler post (None, geminiErr) in
   sink float64 ParseFloat) q
  = Panicked.
Proof.
  intros Hopen Hroom Hall. unfold bind.
  rewrite mqttReadGuageSubHandler_always_sends by done.
  unfold sink. cbn [buf chan_closed fst].
  by rewrite sink_loop_nil_reading.
Qed.

End SinkFacts.

Lemma sink_sets_values_in_order_witness :
  exists calls : list (Z * Luggage),
    sink Z (fun s => if String.eqb s "123.4" then (1234, None)
                     else (0, Some (ErrOther "invalid syntax")))
         {| buf := [{| GasMeterReadResult := Some reading;
                       SrcImageURL := EmptyString |}];
            cap := 10; chan_closed := false |}
    = Ret ((calls, Waiting),
           {| buf := []; cap := 10; chan_closed := false |}) /\
    snd <$> calls
    = List.filter
        (parses Z (fun s => if String.eqb s "123.4" then (1234, None)
                            else (0, Some (ErrOther "invalid syntax"))))
        [{| GasMeterReadResult := Some reading;
            SrcImageURL := EmptyString |}] /\
    Forall (fun c => exists r, GasMeterReadResult (snd c) = Some r /\
                      (if String.eqb (gemini.Read r) "123.4"
                       then (1234, None)
                       else (0, Some (ErrOther "invalid syntax")))
                      = (fst c, None))
           calls.
Proof.
  apply (sink_sets_values_in_order Z
           (fun s => if String.eqb s "123.4" then (1234, None)
                     else (0, Some (ErrOther "invalid syntax")))
           {| buf := [{| GasMeterReadResult := Some reading;
                         SrcImageURL := EmptyString |}];
              cap := 10; chan_closed := false |}).
  repeat constructor. discriminate.
Defined.

Lemma failed_extraction_crashes_the_sink_witness :
  (let* _ := mqttReadGuageSubHandler
               ("http://concierge/luggage/k"%string, None)
               (None, Some (ErrOther "failed to upload: timeout")) in
   sink Z (fun s => (0, None))) chLuggage
  = Panicked.
Proof.
  apply (failed_extraction_crashes_the_sink Z (fun s => (0, None)) chLuggage).
  - reflexivity.
  - simpl. lia.
  - constructor.
Defined.

(** X13.  The queue neither drops nor reorders: as long as there is room,
    the handlers of successive messages leave their luggages in the queue
    in the order they finished, behind what was there. *)
Theorem handlers_queue_in_order (q : chan Luggage)
    (jobs : list ((string * option error)
                  * (option gemini.GasMeterReadResult * option error))) :
  chan_closed q = false ->
  (length (buf q) + length jobs <= cap q)%nat ->
  handle_all jobs q
  = Ret (tt, {| buf := buf q ++ (luggage_of <$> jobs); cap := cap q;
                chan_closed := false |}).
Proof.
  revert q. induction jobs as [|job jobs IH]; intros q Hopen Hroom.
  - simpl. unfold ret. rewrite app_nil_r. destruct q. simpl in *. by subst.
  - cbn [handle_all]. unfold bind. cbn [length] in Hroom.
    rewrite mqttReadGuageSubHandler_always_sends by (done || lia).
    rewrite IH; cbn [buf cap chan_closed];
      [|done|rewrite length_app; simpl; lia].
    by rewrite <- app_assoc.
Qed.

Lemma handlers_queue_in_order_witness :
  handle_all [(("a"%string, None), (Some reading, None));
              ((EmptyString, Some ErrClosedPipe), (Some reading, None))]
             chLuggage
  = Ret (tt, {| buf := [{| GasMeterReadResult := Some reading;
                           SrcImageURL := "a" |};
                        {| GasMeterReadResult := Some reading;
                           SrcImageURL := EmptyString |}];
                cap := 10; chan_closed := false |}).
Proof.
  apply (handlers_queue_in_order chLuggage
           [(("a"%string, None), (Some reading, None));
            ((EmptyString, Some ErrClosedPipe), (Some reading, None))]).
  - reflexivity.
  - simpl. lia.
Defined.

(** X14.  Back-pressure on the queue: when more handlers finish than the
    open queue has room for, and nothing is received, the first one that
    finds the queue full never gets past its send; nothing is dropped or
    overwritten. *)
Theorem handlers_block_on_full_queue (q : chan Luggage)
    (jobs : list ((string * option error)
                  * (option gemini.GasMeterReadResult * option error))) :
  chan_closed q = false ->
  (length (buf q) <= cap q)%nat ->
  (cap q < length (buf q) + length jobs)%nat ->
  handle_all jobs q = Blocked.
Proof.
  revert q. induction jobs as [|job jobs IH]; intros q Hopen Hinv Hfull.
  - simpl in Hfull. lia.
  - cbn [handle_all]. unfold bind. cbn [length] in Hfull.
    destruct (decide (length (buf q) < cap q)%nat) as [Hroom|Hnoroom].
    + rewrite mqttReadGuageSubHandler_always_sends by done.
      apply IH; cbn [buf cap chan_closed]; [done|..];
        rewrite length_app; simpl; lia.
    + destruct job as [[url cerr] [r gerr]]. cbn [fst snd].
      unfold mqttReadGuageSubHandler, chan_send. rewrite Hopen.
      by destruct (Nat.ltb_spec (length (buf q)) (cap q)); [lia|].
Qed.

Lemma handlers_block_on_full_queue_witness :
  handle_all (replicate 11 (("a"%string, None), (Some reading, None)))
             chLuggage
  = Blocked.
Proof.
  apply (handlers_block_on_full_queue chLuggage
           (replicate 11 (("a"%string, None), (Some reading, None))));
    [reflexivity|simpl; lia..].
Defined.

(** * More about the two consumers *)

(** X15.  [PostImage] goes through its six fallible steps in order
    ([CreateFormFile], the copy of the image, [writer.Close],
    [http.NewRequest], [Do], the decoding of the answer): it returns the
    error of the first step that fails, unwrapped, with the empty string;
    when none fails it returns the address, [/luggage/] and the key of the
    answer, and no error. *)
Theorem PostImage_first_failing_step (c : concierge.Client)
    (env : concierge.calls) (mimeType : string) :
  concierge.PostImage c env mimeType
  = match first_error [snd (concierge.CreateFormFile env);
                       snd (concierge.image env);
                       snd (concierge.writer_Close env);
                       concierge.NewRequest env;
                       concierge.Do env;
                       snd (concierge.Decode env)] with
    | Some e => (EmptyString, Some e)
    | None =>
        ((concierge.addr c ++ "/luggage/"
          ++ fst (concierge.Decode env))%string, None)
    end.
Proof.
  unfold concierge.PostImage, concierge.PostImage_body.
  destruct (concierge.CreateFormFile env) as [header [e1|]]; [done|].
  destruct (concierge.image env) as [chunks [e2|]]; [done|].
  destruct (concierge.writer_Close env) as [boundary [e3|]]; [done|].
  destruct (concierge.NewRequest env) as [e4|]; [done|].
  destruct (concierge.Do env) as [e5|]; [done|].
  by destruct (concierge.Decode env) as [key [e6|]].
Qed.

(** X16.  When the part is made and the image is read to its end, the
    body that [PostImage] builds is, in this order: the part header, the
    bytes of the image, the field [mime] with the given type, the field
    [ttl] with 2880 (two days in minutes), and the closing boundary;
    whatever the later steps return. *)
Theorem PostImage_body_layout (c : concierge.Client)
    (env : concierge.calls) (mimeType : string) :
  snd (concierge.CreateFormFile env) = None ->
  snd (concierge.image env) = None ->
  snd (concierge.PostImage_body c env mimeType)
  = fst (concierge.CreateFormFile env)
    ++ concat (fst (concierge.image env))
    ++ concierge.WriteField env "mime" mimeType
    ++ concierge.WriteField env "ttl" "2880"
    ++ fst (concierge.writer_Close env).
Proof.
  unfold concierge.PostImage_body.
  destruct (concierge.CreateFormFile env) as [header e1].
  destruct (concierge.image env) as [chunks e2]. simpl.
  intros -> ->. rewrite io_Copy_appends.
  destruct (concierge.writer_Close env) as [boundary [e3|]];
    [by rewrite <- !app_assoc|].
  destruct (concierge.NewRequest env) as [e4|]; [by rewrite <- !app_assoc|].
  destruct (concierge.Do env) as [e5|]; [by rewrite <- !app_assoc|].
  destruct (concierge.Decode env) as [key [e6|]]; by rewrite <- !app_assoc.
Qed.

Lemma PostImage_body_layout_witness :
  snd (concierge.PostImage_body (concierge.NewClient "http://concierge" "t")
         (one_byte_chunks 2) "image/jpeg")
  = [] ++ concat [[Byte.xff]; [Byte.xff]] ++ [] ++ [] ++ [].
Proof.
  apply (PostImage_body_layout (concierge.NewClient "http://concierge" "t")
           (one_byte_chunks 2) "image/jpeg"); reflexivity.
Defined.

(** X17.  Whenever [ReadGasGuagePic] returns, exactly one of its two
    results is nil.  With an error the reading is nil and the error is a
    new one, whose text is [failed to upload: ] followed by the text of
    the error of the upload, or, when the upload succeeded, [failed to
    analyze: ] followed by the text of the error of the generation.
    Without error the reading has the [Read] and [Date] that the model
    gave, and [ReadAt] and [ItTakes] are set by the call, whatever the
    model put there. *)
Theorem ReadGasGuagePic_result_or_error (env : gemini.calls)
    (res : option gemini.GasMeterReadResult) (err : option error) :
  gemini.ReadGasGuagePic env = Ret (res, err) ->
  (res = None /\
   exists cause : error,
     (gemini.Upload env = Some cause /\
      err = Some (ErrOther ("failed to upload: " ++ Error cause))) \/
     (gemini.Upload env = None /\
      snd (gemini.GenerateData env) = Some cause /\
      err = Some (ErrOther ("failed to analyze: " ++ Error cause)))) \/
  (err = None /\
   gemini.Upload env = None /\
   exists o : gemini.GasMeterReadResult,
     gemini.GenerateData env = (Some o, None) /\
     res = Some {| gemini.Read := gemini.Read o;
                   gemini.Date := gemini.Date o;
                   gemini.ReadAt := gemini.now env;
                   gemini.ItTakes := gemini.since_start env |}).
Proof.
  unfold gemini.ReadGasGuagePic.
  destruct (gemini.Upload env) as [e|].
  { intros [= <- <-]. left. split; [done|]. exists e. by left. }
  destruct (gemini.GenerateData env) as [[o|] [e|]]; try done.
  - intros [= <- <-]. left. split; [done|]. exists e. by right.
  - intros [= <- <-]. right. eauto.
  - intros [= <- <-]. left. split; [done|]. exists e. by right.
Qed.

Lemma ReadGasGuagePic_result_or_error_witness :
  let env := {| gemini.Upload := None;
                gemini.GenerateData :=
                  (None, Some (ErrOther "quota exceeded"));
                gemini.since_start := "3s"; gemini.now := 7 |} in
  let err := Some (ErrOther "failed to analyze: quota exceeded") in
  (@None gemini.GasMeterReadResult = None /\
   exists cause : error,
     (gemini.Upload env = Some cause /\
      err = Some (ErrOther ("failed to upload: " ++ Error cause))) \/
     (gemini.Upload env = None /\
      snd (gemini.GenerateData env) = Some cause /\
      err = Some (ErrOther ("failed to analyze: " ++ Error cause)))) \/
  (err = None /\
   gemini.Upload env = None /\
   exists o : gemini.GasMeterReadResult,
     gemini.GenerateData env = (Some o, None) /\
     @None gemini.GasMeterReadResult
     = Some {| gemini.Read := gemini.Read o;
               gemini.Date := gemini.Date o;
               gemini.ReadAt := gemini.now env;
               gemini.ItTakes := gemini.since_start env |}).
Proof.
  apply (ReadGasGuagePic_result_or_error
           {| gemini.Upload := None;
              gemini.GenerateData :=
                (None, Some (ErrOther "quota exceeded"));
              gemini.since_start := "3s"; gemini.now := 7 |}).
  reflexivity.
Defined.

(** X18.  With the result of [ReadGasGuagePic], the single-shot branch
    sends one luggage exactly when the extraction returned no error, and
    otherwise leaves the queue as it is: its separate test for a nil
    reading never decides. *)
Theorem main_singleShot_follows_the_error (env : gemini.calls)
    (read : option gemini.GasMeterReadResult * option error)
    (post : string * option error) (q : chan Luggage) :
  gemini.ReadGasGuagePic env = Ret read ->
  chan_closed q = false ->
  (length (buf q) < cap q)%nat ->
  main_singleShot post read q
  = Ret (tt, if is_nil (snd read)
             then {| buf := buf q ++ [{| GasMeterReadResult := fst read;
                                         SrcImageURL := fst post |}];
                     cap := cap q; chan_closed := false |}
             else q).
Proof.
  intros Hread Hopen Hroom. destruct post as [url cerr].
  unfold gemini.ReadGasGuagePic in Hread.
  destruct (gemini.Upload env) as [e|].
  { by injection Hread as <-. }
  destruct (gemini.GenerateData env) as [[o|] [e|]]; try done;
    injection Hread as <-; simpl; [done| |done].
  by apply chan_send_open.
Qed.

Lemma main_singleShot_follows_the_error_witness :
  main_singleShot ("http://concierge/luggage/k"%string, None)
    (None, Some (ErrOther "failed to upload: timeout")) chLuggage
  = Ret (tt, if is_nil (Some (ErrOther "failed to upload: timeout"))
             then {| buf := [] ++ [{| GasMeterReadResult := None;
                                      SrcImageURL :=
                                        "http://concierge/luggage/k" |}];
                     cap := 10; chan_closed := false |}
             else chLuggage).
Proof.
  apply (main_singleShot_follows_the_error
           {| gemini.Upload := Some (ErrOther "timeout");
              gemini.GenerateData := (None, None);
              gemini.since_start := "3s"; gemini.now := 7 |}).
  - reflexivity.
  - reflexivity.
  - simpl. lia.
Defined.

(** * The validation of [ParseAmbiguousDigits] *)

Lemma byte_of_bounds a : 0 <= byte_of a < 256.
Proof. unfold byte_of. pose proof (Ascii.N_ascii_bounded a). lia. Qed.

Lemma char_of_byte_of a : char_of (byte_of a) = a.
Proof.
  unfold char_of, byte_of. rewrite N2Z.id. apply Ascii.ascii_N_embedding.
Qed.

Lemma byte_of_char_of z : 0 <= z < 256 -> byte_of (char_of z) = z.
Proof.
  intros Hz. unfold char_of, byte_of.
  rewrite Ascii.N_ascii_embedding by lia. lia.
Qed.

Ltac bool_to_Z :=
  unfold between in *;
  rewrite ?negb_true_iff, ?negb_false_iff, ?andb_true_iff, ?andb_false_iff,
    ?orb_true_iff, ?orb_false_iff, ?Z.leb_le, ?Z.leb_gt, ?Z.ltb_lt,
    ?Z.ltb_ge, ?Z.eqb_eq, ?Z.eqb_neq in *.

(** A substring that occurs starts with a byte of the string. *)
Lemma strings_Contains_head s a t :
  strings_Contains s (String a t) = true -> In a (chars_of s).
Proof.
  induction s as [|b s IH]; simpl; [done|].
  destruct (Ascii.eqb_spec a b) as [->|Hne].
  - intros _. by left.
  - simpl. intros Hin. right. by apply IH.
Qed.

Lemma strings_Contains_byte s a :
  In a (chars_of s) -> strings_Contains s (String a EmptyString) = true.
Proof.
  induction s as [|b s IH]; simpl; [done|].
  intros [->|Hin].
  - rewrite Ascii.eqb_refl. by destruct s.
  - rewrite IH by done. apply orb_true_r.
Qed.

(** Only the runes below 0x80 are encoded with a first byte below 0x80. *)
Lemma string_of_rune_high c :
  ~ (0 <= c < 0x80) ->
  exists a t, string_of_rune c = String a t /\ 0x80 <= byte_of a.
Proof.
  intros Hc. unfold string_of_rune.
  destruct (between 0 127 c) eqn:H1; [exfalso; bool_to_Z; lia|].
  destruct (between 128 2047 c) eqn:H2.
  { eexists _, _. split; [reflexivity|]. bool_to_Z.
    assert (0 <= c / 64 < 32).
    { split; [apply Z.div_pos; lia|apply Z.div_lt_upper_bound; lia]. }
    rewrite byte_of_char_of; lia. }
  destruct ((c <? 0) || (1114111 <? c) || between 55296 57343 c) eqn:H3.
  { eexists _, _. split; [reflexivity|]. by vm_compute. }
  destruct (c <=? 65535) eqn:H4.
  { eexists _, _. split; [reflexivity|]. bool_to_Z.
    assert (0 <= c / 4096 < 16).
    { split; [apply Z.div_pos; lia|apply Z.div_lt_upper_bound; lia]. }
    rewrite byte_of_char_of; lia. }
  eexists _, _. split; [reflexivity|]. bool_to_Z.
  assert (0 <= c / 262144 < 5).
  { split; [apply Z.div_pos; lia|apply Z.div_lt_upper_bound; lia]. }
  rewrite byte_of_char_of; lia.
Qed.

(** A byte from 0x80 on starts a rune from 0x80 on, valid or not. *)
Lemma runes_high a0 s1 :
  0x80 <= byte_of a0 ->
  exists r rest, runes (String a0 s1) = r :: rest /\ 0x80 <= r.
Proof.
  intros Hb0. cbn [runes].
  pose proof (byte_of_bounds a0) as Ha0.
  repeat case_match;
    try (eexists _, _; split; [reflexivity|]);
    try (unfold RuneError; lia);
    bool_to_Z;
    repeat match goal with
           | a : Ascii.ascii |- _ =>
               lazymatch goal with
               | _ : 0 <= byte_of a < 256 |- _ => fail
               | _ => pose proof (byte_of_bounds a)
               end
           end;
    lia.
Qed.

Lemma containsOnly_ascii_byte a s chars :
  byte_of a < 0x80 ->
  containsOnly (String a s) chars
  = strings_Contains chars (String a EmptyString) && containsOnly s chars.
Proof.
  intros Ha. unfold containsOnly. cbn [runes].
  destruct (Z.ltb_spec (byte_of a) 128); [|lia].
  cbn [containsOnly_loop]. unfold string_of_rune.
  pose proof (byte_of_bounds a).
  assert (between 0 127 (byte_of a) = true) as -> by (bool_to_Z; lia).
  rewrite char_of_byte_of.
  by destruct (strings_Contains chars (String a EmptyString)).
Qed.

Lemma containsOnly_high_byte a s chars :
  (forall b, In b (chars_of chars) -> byte_of b < 0x80) ->
  0x80 <= byte_of a ->
  containsOnly (String a s) chars = false.
Proof.
  intros Hchars Ha. unfold containsOnly.
  destruct (runes_high a s Ha) as (r & rest & -> & Hr).
  cbn [containsOnly_loop].
  destruct (string_of_rune_high r) as (b & t & -> & Hb); [lia|].
  destruct (strings_Contains chars (String b t)) eqn:Hin; [|done].
  apply strings_Contains_head, Hchars in Hin. lia.
Qed.

Lemma containsOnly_ascii_spec (s chars : string) :
  (forall a, In a (chars_of chars) -> byte_of a < 0x80) ->
  containsOnly s chars = true <->
  (forall a, In a (chars_of s) -> In a (chars_of chars)).
Proof.
  intros Hchars. induction s as [|a s IH].
  - split; [intros _ a []|done].
  - destruct (Z.lt_ge_cases (byte_of a) 128) as [Ha|Ha].
    + rewrite containsOnly_ascii_byte by done. rewrite andb_true_iff, IH.
      split.
      * intros [Hin Hrest] b [<-|Hb]; [|by apply Hrest].
        by apply strings_Contains_head in Hin.
      * intros Hall. split.
        -- apply strings_Contains_byte, Hall. by left.
        -- intros b Hb. apply Hall. by right.
    + rewrite containsOnly_high_byte by done. split; [done|].
      intros Hall. specialize (Hchars a (Hall a (or_introl eq_refl))). lia.
Qed.

(** X19.  For a set of characters below 0x80, [containsOnly s chars] is
    true exactly when every byte of [s] is one of the bytes of [chars]:
    any byte from 0x80 on, in a valid UTF-8 sequence or not, makes it
    false, and the empty string passes. *)
Theorem containsOnly_ascii_set (s chars : string) :
  (forall a, In a (chars_of chars) -> byte_of a < 0x80) ->
  containsOnly s chars = true <->
  (forall a, In a (chars_of s) -> In a (chars_of chars)).
Proof.
  intros Hchars. induction s as [|a s IH].
  - split; [intros _ a []|done].
  - destruct (Z.lt_ge_cases (byte_of a) 128) as [Ha|Ha].
    + rewrite containsOnly_ascii_byte by done. rewrite andb_true_iff, IH.
      split.
      * intros [Hin Hrest] b [<-|Hb]; [|by apply Hrest].
        by apply strings_Contains_head in Hin.
      * intros Hall. split.
        -- apply strings_Contains_byte, Hall. by left.
        -- intros b Hb. apply Hall. by right.
    + rewrite containsOnly_high_byte by done. split; [done|].
      intros Hall. specialize (Hchars a (Hall a (or_introl eq_refl))). lia.
Qed.

Lemma digits_are_ascii a :
  In a (chars_of ".?0123456789") -> byte_of a < 0x80.
Proof.
  simpl. intros Hin.
  repeat (destruct Hin as [<-|Hin]; [by vm_compute|]). done.
Qed.

Lemma containsOnly_ascii_set_witness :
  containsOnly "02924.4?7" ".?0123456789" = true <->
  (forall a, In a (chars_of "02924.4?7") ->
             In a (chars_of ".?0123456789")).
Proof.
  apply (containsOnly_ascii_set "02924.4?7" ".?0123456789").
  apply digits_are_ascii.
Defined.

(** X20.  [ParseAmbiguousDigits] lets a string through to the model
    exactly when each of its bytes is a digit, a dot or a question mark
    (so also the empty string): it then returns the text of the answer, or
    the empty string and the model's error after [failed to generate: ].
    Any other string is refused with the empty string and an error that
    quotes the string. *)
Theorem ParseAmbiguousDigits_validates (generated : string * option error)
    (s : string) :
  ParseAmbiguousDigits generated s
  = if forallb (fun a => existsb (Ascii.eqb a) (chars_of ".?0123456789"))
               (chars_of s)
    then match snd generated with
         | Some e =>
             (EmptyString,
              Some (ErrOther ("failed to generate: " ++ Error e)))
         | None => (fst generated, None)
         end
    else (EmptyString,
          Some (ErrOther ("ambious value string, " ++ s
                          ++ " is not valid"))).
Proof.
  unfold ParseAmbiguousDigits.
  pose proof (containsOnly_ascii_spec s ".?0123456789" digits_are_ascii)
    as Hspec.
  destruct (forallb _ (chars_of s)) eqn:Hall.
  - assert (containsOnly s ".?0123456789" = true) as ->.
    { apply Hspec. intros a Ha.
      rewrite forallb_forall in Hall. specialize (Hall a Ha).
      apply existsb_exists in Hall as (b & Hb & Hab).
      by apply Ascii.eqb_eq in Hab as ->. }
    by destruct generated as [text [e|]].
  - destruct (containsOnly s ".?0123456789") eqn:Hc; [|done].
    exfalso. rewrite <- not_true_iff_false in Hall. apply Hall.
    apply forallb_forall. intros a Ha. apply existsb_exists.
    exists a. split; [by apply Hspec|apply Ascii.eqb_refl].
Qed.

(** * The first version's [multiWriteCloser] *)

Section MultiWriteCloserFacts.
Context {P : Type} `{PipeEnds P}.

Lemma multiWriteCloser_Close_spec (pre mid post : list P)
    (es : list (option error)) (mid' : list P) :
  Forall3 (fun x e x' => pw_Close x = Ret (e, x')) mid es mid' ->
  multiWriteCloser_Close (seq (length pre) (length mid)) (pre ++ mid ++ post)
  = Ret (match omap id es with
         | [] => None
         | errs =>
             Some (ErrOther ("errors closing writers: ["
                             ++ join_errors errs ++ "]"))
         end, pre ++ mid' ++ post).
Proof.
  intros Hall. unfold multiWriteCloser_Close, bind.
  rewrite (close_each_all mid es mid' pre post [] Hall). simpl.
  by destruct (omap id es).
Qed.

(** X21.  [multiWriteCloser.Close] calls [Close] on every closer, in order
    and whatever the earlier ones returned; it returns nil when none
    failed, and otherwise one error whose message lists the messages of
    all the closers that failed, in order. *)
Theorem multiWriteCloser_Close_lists_all_errors (pre mid post : list P)
    (es : list (option error)) (mid' : list P) :
  Forall3 (fun x e x' => pw_Close x = Ret (e, x')) mid es mid' ->
  multiWriteCloser_Close (seq (length pre) (length mid)) (pre ++ mid ++ post)
  = Ret (match omap id es with
         | [] => None
         | errs =>
             Some (ErrOther ("errors closing writers: ["
                             ++ join_errors errs ++ "]"))
         end, pre ++ mid' ++ post).
Proof.
  intros Hall. unfold multiWriteCloser_Close, bind.
  rewrite (close_each_all mid es mid' pre post [] Hall). simpl.
  by destruct (omap id es).
Qed.

(** X22.  [multiWriteCloser.Close] is not guarded against a second call:
    called again, it calls [Close] on every closer once more and reports
    what those calls return. *)
Theorem multiWriteCloser_Close_closes_again (pre mid post : list P)
    (es es' : list (option error)) (mid' mid'' : list P) :
  Forall3 (fun x e x' => pw_Close x = Ret (e, x')) mid es mid' ->
  Forall3 (fun x e x' => pw_Close x = Ret (e, x')) mid' es' mid'' ->
  (let* _ := multiWriteCloser_Close (seq (length pre) (length mid)) in
   multiWriteCloser_Close (seq (length pre) (length mid)))
    (pre ++ mid ++ post)
  = Ret (match omap id es' with
         | [] => None
         | errs =>
             Some (ErrOther ("errors closing writers: ["
                             ++ join_errors errs ++ "]"))
         end, pre ++ mid'' ++ post).
Proof.
  intros Hfirst Hsecond. unfold bind at 1.
  rewrite (multiWriteCloser_Close_spec pre mid post es mid' Hfirst).
  rewrite (Forall3_length_lr _ _ _ _ Hfirst).
  by apply multiWriteCloser_Close_spec.
Qed.

End MultiWriteCloserFacts.

Lemma multiWriteCloser_Close_lists_all_errors_witness :
  multiWriteCloser_Close (seq 0 3)
    [failing "first"; steady; failing "second"]
  = Ret (Some (ErrOther "errors closing writers: [first second]"),
         [ {| takes := 8; write_err := Some (ErrOther "first");
              close_err := Some (ErrOther "first");
              taken := []; closes := 1 |};
           {| takes := 8; write_err := None; close_err := None;
              taken := []; closes := 1 |};
           {| takes := 8; write_err := Some (ErrOther "second");
              close_err := Some (ErrOther "second");
              taken := []; closes := 1 |} ]).
Proof.
  refine (multiWriteCloser_Close_lists_all_errors []
            [failing "first"; steady; failing "second"] []
            [Some (ErrOther "first"); None; Some (ErrOther "second")]
            [_; _; _] _).
  repeat constructor.
Defined.

Lemma multiWriteCloser_Close_closes_again_witness :
  (let* _ := multiWriteCloser_Close (seq 0 2) in
   multiWriteCloser_Close (seq 0 2)) [steady; failing "gone"]
  = Ret (Some (ErrOther "errors closing writers: [gone]"),
         [ {| takes := 8; write_err := None; close_err := None;
              taken := []; closes := 2 |};
           {| takes := 8; write_err := Some (ErrOther "gone");
              close_err := Some (ErrOther "gone");
              taken := []; closes := 2 |} ]).
Proof.
  refine (multiWriteCloser_Close_closes_again [] [steady; failing "gone"] []
            [None; Some (ErrOther "gone")] [None; Some (ErrOther "gone")]
            [_; _] [_; _] _ _);
    repeat constructor.
Defined.
